(** * lib/sync.ts: outbox push, incremental pull and one-time legacy cleanup

    A shallow embedding of the synchronisation module (the second document
    of [src/lib/bus.ts], whose header names it [lib/sync.ts]) together with
    the properties its specification states about it.

    The module talks to three collaborators: the AsyncStorage key/value
    store, the Supabase client (session, [memberships], [scans]) and the
    wall clock.  Every one of their calls is asynchronous and may reject.
    The embedding threads the storage contents through a state-and-exception
    monad and takes the collaborators' answers from an environment record
    with one field per call site (and, inside the push loop, per
    iteration), so that a theorem quantified over the environment covers
    every behaviour of the collaborators.  The environment also says which
    plain texts the engine's [JSON.parse] accepts. *)

From Stdlib Require Import Ascii String.
From stdpp Require Import gmap strings list pretty.

(** ** Data *)

Inductive CodeType := qrcode | barcode.

(** [type LocalScan].  An optional or nullable field is an [option]:
    [undefined], [null] and an absent property all read [None], which is
    also what survives a JSON round trip.  [meta] is kept as opaque text. *)
Record LocalScan := {
  localId   : string;
  serverId  : option string;
  userId    : option string;
  tenantId  : option string;
  createdAt : string;
  codeType  : CodeType;
  payload   : string;
  clientRef : string;
  meta      : option string;
  synced    : bool;
}.

(** A string held by AsyncStorage.  The module stores two kinds of text:
    plain strings (the cleanup flag, the pull timestamp, whatever the
    retired scheme left behind) and [JSON.stringify] of a scan array.  The
    latter is kept in decoded form: [JsonScans l] stands for the text
    [JSON.stringify(l)], and [Plain s] for a text [s] that is not the JSON
    of an array.  Such a text may still be JSON, of an object, a number, a
    string, a boolean or [null]: whether [JSON.parse] accepts it is asked
    of the environment (see [readJson]). *)
Inductive Text :=
| Plain (s : string)
| JsonScans (l : list LocalScan).

(** JavaScript truthiness of a [string | null]: neither [null] nor empty.
    JSON text is never empty. *)
Definition truthy (o : option Text) : bool :=
  match o with
  | None => false
  | Some (Plain s) => negb (String.eqb s "")
  | Some (JsonScans _) => true
  end.

(** The object handed to [supabase.from('scans').insert]. *)
Module InsertRow.
Record t := {
  user_id    : string;
  tenant_id  : option string;
  created_at : string;
  type       : CodeType;
  value      : string;
  client_ref : string;
  meta       : option string;
}.
End InsertRow.

(** A row of the remote [scans] table as [pullServer] selects it
    ([id] is a number, see [type Row] of the history screen). *)
Module DbRow.
Record t := {
  id         : Z;
  user_id    : option string;
  tenant_id  : option string;
  created_at : string;
  type       : option CodeType;
  value      : string;
  meta       : option string;
}.
End DbRow.

(** ** Keys *)

Definition K_HISTORY : string := "history:v1".
Definition K_OUTBOX : string := "outbox:v1".
Definition K_LASTPULLED_AT : string := "lastPulledAt:v1".
Definition K_LEGACY_CLEANED : string := "SYNC_CLEANED_v1".

Definition LEGACY_KEYS : list string :=
  ["PENDING_QUEUE"; "SYNC_LOCK"; "SYNC_IN_PROGRESS"; "SYNC_QUARANTINE_LAST"].

Definition EPOCH : string := "1970-01-01T00:00:00.000Z".

(** ** The world: storage contents and the calls made so far *)

Inductive Fn := fn_purgeLegacyArtifactsOnce | fn_pushOutbox | fn_pullServer | fn_syncAll.

(** Calls on the collaborators, oldest first in the trace.  [entered] is a
    ghost marker written when one of the module's functions starts. *)
Inductive Call :=
| entered (f : Fn)
| AsyncStorage_getItem (key : string)
| AsyncStorage_setItem (key : string) (v : Text)
| AsyncStorage_multiRemove (keys : list string)
| auth_getSession
| memberships_select (uid : string)
| scans_insert (row : InsertRow.t)
| scans_select (since : Text)
| console_log (msg : string).

Record World := {
  kv    : gmap string Text;
  trace : list Call;
}.

Definition log (c : Call) (w : World) : World :=
  {| kv := kv w; trace := trace w ++ [c] |}.

(** ** State and exception monad *)

Inductive Res (A : Type) :=
| Ok (a : A)
| Throw.
Arguments Ok {A} a.
Arguments Throw {A}.

Definition M (A : Type) : Type := World → Res A * World.

Definition ret {A} (a : A) : M A := λ w, (Ok a, w).

Definition throw {A} : M A := λ w, (Throw, w).

Definition bind {A B} (m : M A) (k : A → M B) : M B :=
  λ w, match m w with
       | (Ok a, w1) => k a w1
       | (Throw, w1) => (Throw, w1)
       end.

(** [try { m } catch { h }]: what [m] wrote before it threw stays written. *)
Definition try_catch {A} (m : M A) (h : M A) : M A :=
  λ w, match m w with
       | (Ok a, w1) => (Ok a, w1)
       | (Throw, w1) => h w1
       end.

Notation "'let!' x ':=' m 'in' k" := (bind m (λ x, k))
  (at level 10, x pattern, m at level 100, k at level 200).
Notation "m ';;;' k" := (bind m (λ _, k))
  (at level 100, k at level 200, right associativity).

(** ** Collaborators *)

(** The answer of an asynchronous call: it resolves with a value or
    rejects. *)
Inductive Reply (A : Type) :=
| Resolves (a : A)
| Rejects.
Arguments Resolves {A} a.
Arguments Rejects {A}.

Definition await {A} (c : Call) (r : Reply A) : M A :=
  λ w, match r with
       | Resolves a => (Ok a, log c w)
       | Rejects => (Throw, log c w)
       end.

(** AsyncStorage.  [fault] says whether this call rejects; a rejected call
    leaves the contents alone. *)
Definition getItem (fault : bool) (key : string) : M (option Text) :=
  λ w, if fault then (Throw, log (AsyncStorage_getItem key) w)
       else (Ok (kv w !! key), log (AsyncStorage_getItem key) w).

Definition setItem (fault : bool) (key : string) (v : Text) : M unit :=
  λ w, if fault then (Throw, log (AsyncStorage_setItem key v) w)
       else (Ok tt, {| kv := <[key := v]> (kv w);
                       trace := trace w ++ [AsyncStorage_setItem key v] |}).

Definition multiRemove (fault : bool) (keys : list string) : M unit :=
  λ w, if fault then (Throw, log (AsyncStorage_multiRemove keys) w)
       else (Ok tt, {| kv := foldr delete (kv w) keys;
                       trace := trace w ++ [AsyncStorage_multiRemove keys] |}).

Definition consoleLog (msg : string) : M unit :=
  λ w, (Ok tt, log (console_log msg) w).

Definition enter (f : Fn) : M unit :=
  λ w, (Ok tt, log (entered f) w).

(** What [readJson<LocalScan[]>] hands back: an array of scans, or, since
    the type assertion checks nothing, whatever else [JSON.parse] made of
    the text.  [NotArray] is such a value: an object, a number, a string, a
    boolean or [null], none of which has the methods of an array. *)
Inductive Parsed :=
| Arr (l : list LocalScan)
| NotArray.

(** [readJson]: the fallback when the key is absent, the text is empty or
    [JSON.parse] throws, and the parsed value otherwise.  [JSON.parse] is
    the engine's: [parses s] says whether it accepts the plain text [s]. *)
Definition readJson (fault : bool) (parses : string → bool) (key : string)
    (fallback : list LocalScan) : M Parsed :=
  let! raw := getItem fault key in
  ret (match raw with
       | None => Arr fallback
       | Some (JsonScans l) => Arr l
       | Some (Plain s) =>
           if String.eqb s "" then Arr fallback
           else if parses s then NotArray
           else Arr fallback
       end).

(** A method call on what [readJson] handed back: on a value that is not
    an array, [.reverse], [.findIndex] and [.filter] are [undefined], and
    calling them throws a [TypeError]. *)
Definition asArray (v : Parsed) : M (list LocalScan) :=
  match v with
  | Arr l => ret l
  | NotArray => throw
  end.

Definition writeJson (fault : bool) (key : string) (value : list LocalScan) : M unit :=
  setItem fault key (JsonScans value).

(** ** One-time cleanup *)

Record PurgeEnv := {
  flag_get_fault : bool;
  remove_fault   : bool;
  flag_set_fault : bool;
}.

Definition purgeLegacyArtifactsOnce (e : PurgeEnv) : M unit :=
  enter fn_purgeLegacyArtifactsOnce ;;;
  let! done := getItem (flag_get_fault e) K_LEGACY_CLEANED in
  if truthy done then ret tt
  else
    multiRemove (remove_fault e) LEGACY_KEYS ;;;
    setItem (flag_set_fault e) K_LEGACY_CLEANED (Plain "1") ;;;
    consoleLog "[SYNC] artifacts cleared".

(** ** Push: Outbox to the remote store *)

(** The [error] object of a Supabase answer, as far as [pushOutbox] looks
    at it: [(error as any)?.code] and [(error as any)?.message]. *)
Record PgError := {
  code    : option string;
  message : option string;
}.

(** The answer of a query that resolved: [{ data, error }]. *)
Inductive QueryResult (A : Type) :=
| QData (data : A)
| QError.
Arguments QData {A} data.
Arguments QError {A}.

(** [/duplicate key/i.test(msg)]: a case-insensitive search for the literal.
    Without the [u] flag only ASCII letters fold onto ASCII letters. *)
Definition lower (c : ascii) : ascii :=
  let n := nat_of_ascii c in
  if (65 <=? n)%nat && (n <=? 90)%nat then ascii_of_nat (n + 32) else c.

Fixpoint starts_with_ci (pat s : string) : bool :=
  match pat, s with
  | EmptyString, _ => true
  | String _ _, EmptyString => false
  | String p pat', String c s' =>
      Ascii.eqb (lower p) (lower c) && starts_with_ci pat' s'
  end.

Fixpoint regex_test_ci (pat s : string) : bool :=
  starts_with_ci pat s ||
  match s with
  | EmptyString => false
  | String _ s' => regex_test_ci pat s'
  end.

(** [code === '23505' || /duplicate key/i.test(msg)] with
    [msg = error.message || ''] *)
Definition isDuplicate (err : PgError) : bool :=
  match code err with
  | Some c => String.eqb c "23505"
  | None => false
  end
  || regex_test_ci "duplicate key" (default "" (message err)).

(** What the collaborators answer during one iteration of the push loop:
    each of them is called at most once per record. *)
Record IterEnv := {
  membership     : Reply (QueryResult (option string));
  insert         : Reply (option PgError);
  hist_get_fault : bool;
  hist_set_fault : bool;
}.

(** What the collaborators answer during a call of [pushOutbox];
    [push_parses s] says whether [JSON.parse] accepts the plain text [s]. *)
Record PushEnv := {
  push_session     : Reply (option string);
  push_parses      : string → bool;
  outbox_get_fault : bool;
  iter             : nat → IterEnv;
  outbox_set_fault : bool;
}.

Inductive Reason := no_session | pull_error.

(** [{ pushed, failed?, reason? }] *)
Record PushResult := {
  pushed      : nat;
  failed      : option nat;
  push_reason : option Reason;
}.

(** [(await supabase.auth.getSession()).data.session], reduced to the
    [user.id] of the session. *)
Definition getSession (r : Reply (option string)) : M (option string) :=
  await auth_getSession r.

(** [ensureTenantId]: [null] on a query error, else
    [data?.tenant_id ?? null]. *)
Definition ensureTenantId (r : Reply (QueryResult (option string))) (uid : string)
  : M (option string) :=
  let! res := await (memberships_select uid) r in
  ret (match res with
       | QError => None
       | QData t => t
       end).

Definition makeRow (uid : string) (tenant : option string) (item : LocalScan)
  : InsertRow.t :=
  {| InsertRow.user_id := uid;
     InsertRow.tenant_id := tenant;
     InsertRow.created_at := createdAt item;
     InsertRow.type := codeType item;
     InsertRow.value := payload item;
     InsertRow.client_ref := clientRef item;
     InsertRow.meta := meta item |}.

(** [hist.findIndex(h => h.localId === id)]; [None] is the source's [-1]. *)
Fixpoint findIndex (id : string) (hist : list LocalScan) : option nat :=
  match hist with
  | [] => None
  | h :: hist' =>
      if String.eqb (localId h) id then Some 0%nat
      else S <$> findIndex id hist'
  end.

(** [h.synced = true; h.userId = userId] *)
Definition markSynced (uid : string) (h : LocalScan) : LocalScan :=
  {| localId := localId h; serverId := serverId h; userId := Some uid;
     tenantId := tenantId h; createdAt := createdAt h; codeType := codeType h;
     payload := payload h; clientRef := clientRef h; meta := meta h;
     synced := true |}.

(** Does the answer of the insert let the record through (no error, or a
    duplicate)? *)
Definition accepted (err : option PgError) : bool :=
  match err with
  | None => true
  | Some er => isDuplicate er
  end.

(** The body of [for (const item of outbox)].  The loop state is
    [(pushed, failures)]; [failures.push] appends.  [hist.findIndex] is
    called inside the [try]. *)
Definition pushBody (uid : string) (parses : string → bool) (e : IterEnv)
    (item : LocalScan) (st : nat * list LocalScan) : M (nat * list LocalScan) :=
  try_catch
    (let! tenant :=
       match tenantId item with
       | Some t => ret (Some t)
       | None => ensureTenantId (membership e) uid
       end in
     let row := makeRow uid tenant item in
     let! error := await (scans_insert row) (insert e) in
     if accepted error then
       let! stored := readJson (hist_get_fault e) parses K_HISTORY [] in
       let! hist := asArray stored in
       match findIndex (localId item) hist with
       | Some idx =>
           writeJson (hist_set_fault e) K_HISTORY (alter (markSynced uid) idx hist)
       | None => ret tt
       end ;;;
       ret (S (fst st), snd st)
     else ret (fst st, snd st ++ [item]))
    (ret (fst st, snd st ++ [item])).

Fixpoint pushLoop (uid : string) (parses : string → bool) (it : nat → IterEnv)
    (i : nat) (items : list LocalScan) (st : nat * list LocalScan)
  : M (nat * list LocalScan) :=
  match items with
  | [] => ret st
  | item :: rest =>
      let! st' := pushBody uid parses (it i) item st in
      pushLoop uid parses it (S i) rest st'
  end.

(** [.reverse()] is called on what [readJson] handed back, before the
    loop and outside every [try]. *)
Definition pushOutbox (e : PushEnv) : M PushResult :=
  enter fn_pushOutbox ;;;
  let! session := getSession (push_session e) in
  match session with
  | None => ret {| pushed := 0; failed := None; push_reason := Some no_session |}
  | Some uid =>
      let! stored := readJson (outbox_get_fault e) (push_parses e) K_OUTBOX [] in
      let! queued := asArray stored in
      let outbox := reverse queued in
      if (length outbox =? 0)%nat
      then ret {| pushed := 0; failed := None; push_reason := None |}
      else
        let! st := pushLoop uid (push_parses e) (iter e) 0 outbox (0%nat, []) in
        writeJson (outbox_set_fault e) K_OUTBOX (reverse (snd st)) ;;;
        ret {| pushed := fst st; failed := Some (length (snd st));
               push_reason := None |}
  end.

(** ** Pull: remote store to History *)

(** What the collaborators answer during a call of [pullServer];
    [pull_parses s] says whether [JSON.parse] accepts the plain text [s]. *)
Record PullEnv := {
  pull_session        : Reply (option string);
  since_get_fault     : bool;
  select              : Reply (QueryResult (option (list DbRow.t)));
  pull_parses         : string → bool;
  pull_hist_get_fault : bool;
  pull_hist_set_fault : bool;
  nowIso              : string;
  mark_set_fault      : bool;
}.

(** [{ pulled, reason? }] *)
Record PullResult := {
  pulled      : nat;
  pull_reason : option Reason;
}.

(** Truthiness of [h.serverId]: set and not the empty string. *)
Definition truthyString (o : option string) : bool :=
  match o with
  | Some s => negb (String.eqb s "")
  | None => false
  end.

(** [new Set(history.filter(h => h.serverId).map(h => h.serverId))] *)
Definition byServerId (history : list LocalScan) : gset string :=
  list_to_set (omap serverId (filter (λ h, Is_true (truthyString (serverId h))) history)).

(** [String(row.id)], the decimal numeral of an integer id. *)
Definition idStr (row : DbRow.t) : string := pretty (DbRow.id row).

(** The History entry built from a pulled row. *)
Definition fromRow (row : DbRow.t) : LocalScan :=
  {| localId := "srv-" +:+ idStr row;
     serverId := Some (idStr row);
     userId := DbRow.user_id row;
     tenantId := DbRow.tenant_id row;
     createdAt := DbRow.created_at row;
     codeType := default barcode (DbRow.type row);
     payload := DbRow.value row;
     clientRef := "srv-" +:+ idStr row;
     meta := DbRow.meta row;
     synced := true |}.

(** The body of [for (const row of data ?? [])] on the loop state
    [(history, added)].  The set of known ids is the one computed before
    the loop. *)
Definition mergeRow (known : gset string) (st : list LocalScan * nat)
    (row : DbRow.t) : list LocalScan * nat :=
  if decide (idStr row ∈ known) then st
  else (fst st ++ [fromRow row], S (snd st)).

(** [(a, b) => (a.createdAt < b.createdAt ? 1 : -1)] *)
Definition compareFn (a b : LocalScan) : Z :=
  if String.ltb (createdAt a) (createdAt b) then 1%Z else (-1)%Z.

(** [Array.prototype.sort(compareFn)].  The engine's algorithm is not part
    of the module, and with a comparator that never answers 0 the order of
    entries with equal keys is left to it; an insertion sort stands for it
    here, and the proofs below use only that it permutes the array. *)
Fixpoint sortInsert {A} (cmp : A → A → Z) (x : A) (l : list A) : list A :=
  match l with
  | [] => [x]
  | y :: l' => if (cmp x y <=? 0)%Z then x :: y :: l' else y :: sortInsert cmp x l'
  end.

Definition arraySort {A} (cmp : A → A → Z) (l : list A) : list A :=
  foldr (sortInsert cmp) [] l.

Definition pullServer (e : PullEnv) : M PullResult :=
  enter fn_pullServer ;;;
  let! session := getSession (pull_session e) in
  match session with
  | None => ret {| pulled := 0; pull_reason := Some no_session |}
  | Some _ =>
      let! stored := getItem (since_get_fault e) K_LASTPULLED_AT in
      let since := default (Plain EPOCH) stored in
      let! res := await (scans_select since) (select e) in
      match res with
      | QError => ret {| pulled := 0; pull_reason := Some pull_error |}
      | QData data =>
          let! parsed := readJson (pull_hist_get_fault e) (pull_parses e) K_HISTORY [] in
          let! history := asArray parsed in
          let st := foldl (mergeRow (byServerId history)) (history, 0%nat)
                          (default [] data) in
          writeJson (pull_hist_set_fault e) K_HISTORY (arraySort compareFn (fst st)) ;;;
          setItem (mark_set_fault e) K_LASTPULLED_AT (Plain (nowIso e)) ;;;
          ret {| pulled := snd st; pull_reason := None |}
      end
  end.

(** ** The whole pass *)

Record SyncEnv := {
  purge_env : PurgeEnv;
  push_env  : PushEnv;
  pull_env  : PullEnv;
}.

(** [{ push, pull, error? }] *)
Record SyncResult := {
  push  : PushResult;
  pull  : PullResult;
  error : bool;
}.

Definition swallowed : SyncResult :=
  {| push := {| pushed := 0; failed := None; push_reason := None |};
     pull := {| pulled := 0; pull_reason := None |};
     error := true |}.

Definition syncAll (e : SyncEnv) : M SyncResult :=
  enter fn_syncAll ;;;
  purgeLegacyArtifactsOnce (purge_env e) ;;;
  try_catch
    (let! push := pushOutbox (push_env e) in
     let! pull := pullServer (pull_env e) in
     ret {| push := push; pull := pull; error := false |})
    (ret swallowed).


(** ** The listeners: [attachSyncListeners] *)

(** [state] of a NetInfo event, as far as the listener reads it; both
    fields are [boolean | null]. *)
Record NetInfoState := {
  isConnected         : option bool;
  isInternetReachable : option bool;
}.

(** Truthiness of a [boolean | null]. *)
Definition truthyBool (o : option bool) : bool := default false o.

(** [syncAll().catch(() => {})]: the task a listener starts. *)
Definition syncQuietly (e : SyncEnv) : M unit :=
  try_catch (syncAll e ;;; ret tt) (ret tt).

(** The callback given to [NetInfo.addEventListener]. *)
Definition onNetInfo (e : SyncEnv) (state : NetInfoState) : M unit :=
  if truthyBool (isConnected state) && truthyBool (isInternetReachable state)
  then syncQuietly e
  else ret tt.

(** The callback given to [AppState.addEventListener('change', ...)]. *)
Definition onAppState (e : SyncEnv) (s : string) : M unit :=
  if String.eqb s "active" then syncQuietly e else ret tt.

(** ** lib/bus.ts: the event bus *)

(** The names a plain object inherits from [Object.prototype]: looked up
    in an object literal they give a function or an object, not
    [undefined]. *)
Definition inheritedNames : list string :=
  ["constructor"; "hasOwnProperty"; "isPrototypeOf"; "propertyIsEnumerable";
   "toLocaleString"; "toString"; "valueOf"; "__proto__";
   "__defineGetter__"; "__defineSetter__"; "__lookupGetter__"; "__lookupSetter__"].

(** [listeners : Record<string, Set<Handler>>], a plain object that starts
    as [{}]: the map holds its own properties.  A handler is a function
    object and the [Set] tells handlers apart by identity, so a handler is
    any type [H] with a decidable equality.  A [Set] iterates in insertion
    order: it is a list, on which [add] appends unless the element is
    there and [delete] removes it.  [emit] gives the calls [fn(payload)]
    that [forEach] makes, in order, for handlers that neither throw nor
    touch the bus while they run.  [None] is a [TypeError]. *)
Module bus.

(** What [listeners[event]] gives: the [Set] stored under the name; else,
    for a name every object inherits, the inherited member, which is
    neither nullish nor a [Set]; else [undefined]. *)
Inductive Slot (H : Type) :=
| ownSet (s : list H)
| inheritedMember
| undefined.
Arguments ownSet {H} s.
Arguments inheritedMember {H}.
Arguments undefined {H}.

Definition slot {H} (event : string) (listeners : gmap string (list H)) : Slot H :=
  match listeners !! event with
  | Some s => ownSet s
  | None => if bool_decide (event ∈ inheritedNames) then inheritedMember else undefined
  end.

Definition setAdd `{EqDecision H} (h : H) (s : list H) : list H :=
  if decide (h ∈ s) then s else s ++ [h].

Definition setDelete `{EqDecision H} (h : H) (s : list H) : list H :=
  filter (λ x, x ≠ h) s.

(** [(listeners[event] ??= new Set()).add(handler)]: an inherited member
    is not nullish, so nothing is assigned, and it has no [add]. *)
Definition on `{EqDecision H} (event : string) (handler : H)
    (listeners : gmap string (list H)) : option (gmap string (list H)) :=
  match slot event listeners with
  | ownSet s => Some (<[event := setAdd handler s]> listeners)
  | undefined => Some (<[event := setAdd handler []]> listeners)
  | inheritedMember => None
  end.

(** The function [on] returns: [() => listeners[event]?.delete(handler)];
    an inherited member has no [delete]. *)
Definition off `{EqDecision H} (event : string) (handler : H)
    (listeners : gmap string (list H)) : option (gmap string (list H)) :=
  match slot event listeners with
  | ownSet s => Some (<[event := setDelete handler s]> listeners)
  | undefined => Some listeners
  | inheritedMember => None
  end.

(** [listeners[event]?.forEach(fn => fn(payload))]; an inherited member
    has no [forEach]. *)
Definition emit {H P} (event : string) (payload : P)
    (listeners : gmap string (list H)) : option (list (H * P)) :=
  match slot event listeners with
  | ownSet s => Some ((λ fn, (fn, payload)) <$> s)
  | undefined => Some []
  | inheritedMember => None
  end.

End bus.

(** ** The history screen: the reducers behind the bus and realtime events *)

Module HistoryScreen.

(** [type Row] *)
Record Row := {
  id         : Z;
  client_ref : string;
  tenant_id  : option string;
  user_id    : string;
  type       : CodeType;
  value      : string;
  created_at : string;
  meta       : option string;
}.

Definition PAGE : nat := 50.

(** [prev.some(x => x.id === r.id)] *)
Definition hasId (i : Z) (prev : list Row) : bool :=
  existsb (λ x, (id x =? i)%Z) prev.

(** ['scan:insert'] and realtime [INSERT]:
    [prev.some(x => x.id === r.id) ? prev : [r, ...prev].slice(0, PAGE)] *)
Definition onInsert (r : Row) (prev : list Row) : list Row :=
  if hasId (id r) prev then prev else take PAGE (r :: prev).

(** ['scan:delete'] and realtime [DELETE]: [prev.filter(x => x.id !== id)] *)
Definition onDelete (i : Z) (prev : list Row) : list Row :=
  filter (λ x, id x ≠ i) prev.

(** Realtime [UPDATE]: [prev.map(x => (x.id === r.id ? r : x))] *)
Definition onUpdate (r : Row) (prev : list Row) : list Row :=
  (λ x, if (id x =? id r)%Z then r else x) <$> prev.

End HistoryScreen.

(** ** The scan screen's own cleanup (app/(tabs)/scan.tsx) *)

(** [purgeLegacySyncArtifacts] *)
Definition purgeLegacySyncArtifacts (e : PurgeEnv) : M unit :=
  multiRemove (remove_fault e)
    ["PENDING_QUEUE"; "SYNC_LOCK"; "SYNC_IN_PROGRESS"; "SYNC_QUARANTINE_LAST"] ;;;
  setItem (flag_set_fault e) "SYNC_CLEANED_v1" (Plain "1") ;;;
  consoleLog "[sync] legacy artifacts purged".

(** The effect that runs it on mount:
    [const done = await getItem('SYNC_CLEANED_v1');
     if (!done) await purgeLegacySyncArtifacts();] *)
Definition scanScreenCleanup (e : PurgeEnv) : M unit :=
  let! done := getItem (flag_get_fault e) "SYNC_CLEANED_v1" in
  if negb (truthy done) then purgeLegacySyncArtifacts e else ret tt.

(** ** lib/offlineQueue.ts: the retired queue *)

Module offlineQueue.

Definition KEYS : list string :=
  ["PENDING_QUEUE"; "SYNC_LOCK"; "SYNC_IN_PROGRESS"; "SYNC_QUARANTINE_LAST"].

(** [try { await multiRemove(KEYS); console.log(...) } catch {}] *)
Definition purgeSyncArtifactsOnce (fault : bool) : M unit :=
  try_catch
    (multiRemove fault KEYS ;;; consoleLog "[SYNC] artifacts cleared")
    (ret tt).

End offlineQueue.

(** ** lib/tenantStorage.ts and lib/resolveTenant.ts *)

Definition TENANT_KEY : string := "tenantId".

Definition setTenantId (fault : bool) (id : Text) : M unit :=
  setItem fault TENANT_KEY id.

Definition getTenantId (fault : bool) : M (option Text) :=
  getItem fault TENANT_KEY.

(** A row of [memberships] as selected: [tenant_id, role]. *)
Record Membership := {
  m_tenant_id : string;
  role        : option string;
}.

(** [priority[role] ?? 0] as a number, [None] when it is not one (an
    inherited member, which arithmetic turns into [NaN]).  A [null] role
    reads the key ["null"], which is [undefined]. *)
Definition priorityOf (r : option string) : option Z :=
  match r with
  | None => Some 0%Z
  | Some s =>
      if String.eqb s "owner" then Some 3%Z
      else if String.eqb s "admin" then Some 2%Z
      else if String.eqb s "member" then Some 1%Z
      else if bool_decide (s ∈ inheritedNames) then None
      else Some 0%Z
  end.

(** [(a, b) => (priority[b.role] ?? 0) - (priority[a.role] ?? 0)]; the
    sort reads a [NaN] answer as 0. *)
Definition byPriority (a b : Membership) : Z :=
  match priorityOf (role b), priorityOf (role a) with
  | Some pb, Some pa => (pb - pa)%Z
  | _, _ => 0%Z
  end.

(** What the collaborators answer to [resolveTenant.ensureTenantId]:
    [auth.getUser()] gives an error or the id of the user, if any. *)
Record TenantEnv := {
  tenant_get_fault : bool;
  getUser          : Reply (QueryResult (option string));
  memberships      : Reply (QueryResult (option (list Membership)));
  tenant_set_fault : bool;
}.

(** A call on a collaborator that the trace keeps no record of
    ([auth.getUser]). *)
Definition answer {A} (r : Reply A) : M A :=
  λ w, match r with
       | Resolves a => (Ok a, w)
       | Rejects => (Throw, w)
       end.

Module resolveTenant.

(** Steps 2 to 5 of [ensureTenantId]: the user, the memberships, the sort
    by role, the save.  [mems[0]] of an empty array is [undefined], whose
    [tenant_id] throws. *)
Definition resolveFromMemberships (e : TenantEnv) : M Text :=
  let! userRes := answer (getUser e) in
  match userRes with
  | QError => throw
  | QData None => throw
  | QData (Some uid) =>
      if String.eqb uid "" then throw
      else
        let! res := await (memberships_select uid) (memberships e) in
        match res with
        | QError => throw
        | QData None => throw
        | QData (Some mems) =>
            if (length mems =? 0)%nat then throw
            else
              match arraySort byPriority mems with
              | [] => throw
              | first :: _ =>
                  let id := Plain (m_tenant_id first) in
                  setTenantId (tenant_set_fault e) id ;;;
                  ret id
              end
        end
  end.

(** [ensureTenantId] of lib/resolveTenant.ts: the stored id when there is
    one, else the one resolved from the memberships. *)
Definition ensureTenantId (e : TenantEnv) : M Text :=
  let! existing := getTenantId (tenant_get_fault e) in
  match existing with
  | Some t => if truthy (Some t) then ret t else resolveFromMemberships e
  | None => resolveFromMemberships e
  end.

End resolveTenant.

(** ** The scan screen: accepting a camera event (app/(tabs)/scan.tsx) *)

Module ScanScreen.

(** [type ScanItem] *)
Record ScanItem := {
  id    : Z;
  value : string;
  type  : string;
  ts    : Z;
}.

(** The two refs and the list [handleScanned] works on. *)
Record State := {
  lastScannedAt : Z;
  lastDataRef   : option string;
  history       : list ScanItem;
}.

(** [useRef(0)], [useRef(null)], [useState([])] *)
Definition initial : State :=
  {| lastScannedAt := 0; lastDataRef := None; history := [] |}.

(** What the mount effect finds under [HISTORY_KEY]: nothing (no text, an
    empty one, or a read that rejects), a text that [JSON.parse] rejects,
    JSON of something that is not an array, or JSON of a list of items. *)
Inductive StoredList :=
| nothingStored
| notJson
| notAnArray
| storedItems (l : list ScanItem).

(** The effect that loads the list when the screen mounts:
    [if (raw) { const parsed = JSON.parse(raw);
                setHistory(Array.isArray(parsed) ? parsed : []); }]
    inside [try { } catch {}].  It is asynchronous, so it may complete
    after an event has been accepted; it leaves the two refs alone. *)
Definition loadHistory (raw : StoredList) (s : State) : State :=
  match raw with
  | nothingStored | notJson => s
  | notAnArray =>
      {| lastScannedAt := lastScannedAt s; lastDataRef := lastDataRef s;
         history := [] |}
  | storedItems l =>
      {| lastScannedAt := lastScannedAt s; lastDataRef := lastDataRef s;
         history := l |}
  end.

(** [handleScanned], up to the call of [saveScanDirect]: [None] when the
    event is dropped by one of the two early returns, else the state in
    which the value goes on to be saved.  [now] is [Date.now()]. *)
Definition handleScanned (now : Z) (data : string) (type : string) (s : State)
  : option State :=
  if (now - lastScannedAt s <? 800)%Z then None
  else if negb (String.eqb data "")
          && bool_decide (lastDataRef s = Some data) then None
  else Some {| lastScannedAt := now;
               lastDataRef := Some data;
               history := take 200 ({| id := now; value := data; type := type;
                                       ts := now |} :: history s) |}.

(** Tapping the delete button of an item:
    [setHistory(prev => prev.filter(x => x.id !== item.id))] *)
Definition removeItem (i : Z) (s : State) : State :=
  {| lastScannedAt := lastScannedAt s;
     lastDataRef := lastDataRef s;
     history := filter (λ x, id x ≠ i) (history s) |}.

End ScanScreen.
(** * Vocabulary of the properties *)

(** The scans stored under a key: the array there, [[]] when there is
    none. *)
Definition scansAt (key : string) (w : World) : list LocalScan :=
  match kv w !! key with
  | Some (JsonScans l) => l
  | Some (Plain _) | None => []
  end.

Definition historyOf (w : World) : list LocalScan := scansAt K_HISTORY w.
Definition outboxOf (w : World) : list LocalScan := scansAt K_OUTBOX w.

(** The cleanup flag is set. *)
Definition flagSet (w : World) : Prop :=
  truthy (kv w !! K_LEGACY_CLEANED) = true.

(** What a call of the cleanup does once the flag is set: it reads the
    flag and returns. *)
Definition readsFlagOnly (w : World) : World :=
  {| kv := kv w;
     trace := trace w ++ [entered fn_purgeLegacyArtifactsOnce;
                          AsyncStorage_getItem K_LEGACY_CLEANED] |}.

(** Later calls of the cleanup, whatever the storage does to them. *)
Definition purgeAgain (es : list PurgeEnv) (w : World) : World :=
  foldl (λ w e, snd (purgeLegacyArtifactsOnce e w)) w es.

(** The text under a key is JSON of something that is not an array, so
    that what [readJson] hands back has none of the methods of an array. *)
Definition notArray (parses : string → bool) (o : option Text) : bool :=
  match o with
  | Some (Plain s) => negb (String.eqb s "") && parses s
  | Some (JsonScans _) | None => false
  end.

(** Nothing, or an array of scans. *)
Definition arrayOrNothing (o : option Text) : Prop :=
  match o with
  | Some (JsonScans _) | None => True
  | Some (Plain _) => False
  end.

(** The Outbox and History keys hold what the module writes there: an
    array of scans each, or nothing yet. *)
Definition arraysStored (w : World) : Prop :=
  arrayOrNothing (kv w !! K_OUTBOX) ∧ arrayOrNothing (kv w !! K_HISTORY).

(** [c] is the character [p] of a pattern written in small letters, or
    its capital. *)
Definition foldsTo (p c : ascii) : Prop :=
  c = p ∨
  ((97 ≤ nat_of_ascii p)%nat ∧ (nat_of_ascii p ≤ 122)%nat ∧
   (nat_of_ascii c + 32)%nat = nat_of_ascii p).

(** [s] is the pattern [pat] up to the case of its letters. *)
Inductive sameLetters : string → string → Prop :=
| sameLetters_nil : sameLetters EmptyString EmptyString
| sameLetters_cons p c pat s :
    foldsTo p c → sameLetters pat s → sameLetters (String p pat) (String c s).

(** The pattern has no capital letter. *)
Fixpoint noCapitals (pat : string) : bool :=
  match pat with
  | EmptyString => true
  | String p pat' =>
      negb ((65 <=? nat_of_ascii p)%nat && (nat_of_ascii p <=? 90)%nat)
      && noCapitals pat'
  end.

(** The message contains the pattern, in any letter case. *)
Definition mentions (pat msg : string) : Prop :=
  ∃ before found after,
    msg = before +:+ found +:+ after ∧ sameLetters pat found.

(** The error reports a violated uniqueness constraint: PostgreSQL's code
    23505, or a message that contains the words "duplicate key". *)
Definition uniqueViolation (err : PgError) : Prop :=
  code err = Some "23505" ∨
  ∃ msg, message err = Some msg ∧ mentions "duplicate key" msg.

(** The remote store fails the record of an iteration: the membership
    lookup rejects when the record has no tenant, the insert rejects, or
    the insert answers an error that does not report a violated uniqueness
    constraint. *)
Definition failsRemotely (e : IterEnv) (item : LocalScan) : Prop :=
  (tenantId item = None ∧ membership e = Rejects) ∨
  insert e = Rejects ∨
  ∃ err, insert e = Resolves (Some err) ∧ ¬ uniqueViolation err.

(** How the remote store ends one iteration of the push loop: the
    membership lookup rejects when it is needed, the insert rejects, or
    the insert answers an error that is not a duplicate. *)
Definition remoteFailure (e : IterEnv) (item : LocalScan) : bool :=
  match tenantId item, membership e with
  | None, Rejects => true
  | _, _ =>
      match insert e with
      | Rejects => true
      | Resolves err => negb (accepted err)
      end
  end.

(** The position of the History entry an accepted record is looked up at. *)
Definition histIndex (item : LocalScan) (m : gmap string Text) : option nat :=
  match m !! K_HISTORY with
  | Some (JsonScans hist) => findIndex (localId item) hist
  | Some (Plain _) | None => None
  end.

(** The storage after an accepted record has been marked. *)
Definition confirm (uid : string) (item : LocalScan) (m : gmap string Text)
  : gmap string Text :=
  match m !! K_HISTORY with
  | Some (JsonScans hist) =>
      match findIndex (localId item) hist with
      | Some idx => <[K_HISTORY := JsonScans (alter (markSynced uid) idx hist)]> m
      | None => m
      end
  | Some (Plain _) | None => m
  end.

(** An iteration puts its record on [failures] when the remote store fails
    it, when the storage rejects the read or the write of History, or when
    what is read as History is not an array. *)
Definition iterFails (parses : string → bool) (e : IterEnv) (item : LocalScan)
    (m : gmap string Text) : bool :=
  remoteFailure e item
  || hist_get_fault e
  || notArray parses (m !! K_HISTORY)
  || (hist_set_fault e && bool_decide (is_Some (histIndex item m))).

(** No storage call of the push rejects during the first [n] iterations. *)
Definition storageHolds (e : PushEnv) (n : nat) : Prop :=
  outbox_get_fault e = false ∧ outbox_set_fault e = false ∧
  ∀ i, (i < n)%nat →
       hist_get_fault (iter e i) = false ∧ hist_set_fault (iter e i) = false.

(** The records of a run of iterations, starting at iteration [i], that
    the remote store fails. *)
Fixpoint failing (it : nat → IterEnv) (i : nat) (items : list LocalScan)
  : list LocalScan :=
  match items with
  | [] => []
  | item :: rest =>
      (if remoteFailure (it i) item then [item] else []) ++ failing it (S i) rest
  end.


(** The records of a run of iterations, starting at iteration [i], that
    the remote store lets through (accepted or duplicate). *)
Fixpoint confirmed (it : nat → IterEnv) (i : nat) (items : list LocalScan)
  : list LocalScan :=
  match items with
  | [] => []
  | item :: rest =>
      (if remoteFailure (it i) item then [] else [item]) ++ confirmed it (S i) rest
  end.

(** [b] is the entry [a] marked as synced by the user [uid]: [synced] is
    true, [userId] is the user, and every other field is as it was. *)
Definition marked (uid : string) (a b : LocalScan) : Prop :=
  synced b = true ∧ userId b = Some uid ∧
  localId b = localId a ∧ serverId b = serverId a ∧ tenantId b = tenantId a ∧
  createdAt b = createdAt a ∧ codeType b = codeType a ∧ payload b = payload a ∧
  clientRef b = clientRef a ∧ meta b = meta a.

(** What a push may do to a History entry [a]: leave it, or mark it as
    synced when its [localId] is among [ids]. *)
Definition touched (uid : string) (ids : list string) (a b : LocalScan) : Prop :=
  b = a ∨ (marked uid a b ∧ localId a ∈ ids).

(** What a push may do to the storage, the Outbox key aside. *)
Definition pushedOver (uid : string) (ids : list string) (m m' : gmap string Text) : Prop :=
  (∀ k, k ≠ K_HISTORY → m' !! k = m !! k) ∧
  (m' !! K_HISTORY = m !! K_HISTORY ∨
   ∃ hist hist',
     m !! K_HISTORY = Some (JsonScans hist) ∧
     m' !! K_HISTORY = Some (JsonScans hist') ∧
     Forall2 (touched uid ids) hist hist').

(** No two entries share a [serverId] that is not null. *)
Definition serverIdsUnique (history : list LocalScan) : Prop :=
  NoDup (omap serverId history).

(** The rows a pull adds: those whose id is not among [known]. *)
Definition fresh (known : gset string) (rows : list DbRow.t) : list DbRow.t :=
  filter (λ row, idStr row ∉ known) rows.

(** The History a pull writes for the rows [rows] over the History [hist]. *)
Definition pulledHistory (hist : list LocalScan) (rows : list DbRow.t) : list LocalScan :=
  arraySort compareFn
    (fst (foldl (mergeRow (byServerId hist)) (hist, 0%nat) rows)).

(** [id] is the key of the remote table: an answer of the query lists a
    row once. *)
Definition rowsDistinct (e : PullEnv) : Prop :=
  match select e with
  | Resolves (QData (Some rows)) => NoDup (DbRow.id <$> rows)
  | Resolves (QData None) | Resolves QError | Rejects => True
  end.

(** The Pull Watermark: the stored text, the epoch when there is none. *)
Definition watermark (w : World) : Text :=
  default (Plain EPOCH) (kv w !! K_LASTPULLED_AT).

(** [a] is not later than [b]: ISO timestamps of equal length compare as
    their texts do. *)
Definition notLater (a b : Text) : Prop :=
  match a, b with
  | Plain s, Plain t => String.leb s t = true
  | _, _ => a = b
  end.

(** ** Sample data *)

(** [JSON.parse] on the plain texts of the samples: it accepts these and
    rejects the time stamps. *)
Definition sampleJson (s : string) : bool :=
  bool_decide (s ∈ ["{}"; "null"; "true"; "false"; "0"; "1"]).

Definition scanA : LocalScan :=
  {| localId := "l1"; serverId := None; userId := None; tenantId := Some "t1";
     createdAt := "2025-03-01T10:00:00.000Z"; codeType := qrcode; payload := "X";
     clientRef := "a1"; meta := None; synced := false |}.

Definition scanB : LocalScan :=
  {| localId := "l2"; serverId := None; userId := None; tenantId := None;
     createdAt := "2025-03-01T11:00:00.000Z"; codeType := barcode; payload := "Y";
     clientRef := "b2"; meta := None; synced := false |}.

Definition rowOf (n : Z) (at_ : string) : DbRow.t :=
  {| DbRow.id := n; DbRow.user_id := Some "u1"; DbRow.tenant_id := Some "t1";
     DbRow.created_at := at_; DbRow.type := Some qrcode; DbRow.value := "Z";
     DbRow.meta := None |}.

(** A fresh installation: nothing stored, nothing called. *)
Definition freshWorld : World := {| kv := ∅; trace := [] |}.

(** Two records queued for push, both in History. *)
Definition queuedWorld : World :=
  {| kv := <[K_OUTBOX := JsonScans [scanB; scanA]]>
             (<[K_HISTORY := JsonScans [scanB; scanA]]> ∅);
     trace := [] |}.

(** A storage whose watermark is the second of March 2025. *)
Definition pulledWorld : World :=
  {| kv := <[K_LASTPULLED_AT := Plain "2025-03-02T00:00:00.000Z"]> ∅;
     trace := [] |}.

Definition storageFine : PurgeEnv :=
  {| flag_get_fault := false; remove_fault := false; flag_set_fault := false |}.

Definition flagUnreadable : PurgeEnv :=
  {| flag_get_fault := true; remove_fault := false; flag_set_fault := false |}.

Definition iterOk : IterEnv :=
  {| membership := Resolves (QData (Some "t1")); insert := Resolves None;
     hist_get_fault := false; hist_set_fault := false |}.


Definition iterOffline : IterEnv :=
  {| membership := Resolves (QData (Some "t1"));
     insert := Resolves (Some {| code := None; message := Some "Network request failed" |});
     hist_get_fault := false; hist_set_fault := false |}.

(** A push with a session in which every insert is accepted. *)
Definition pushFine : PushEnv :=
  {| push_session := Resolves (Some "u1"); push_parses := sampleJson;
     outbox_get_fault := false;
     iter := λ _, iterOk; outbox_set_fault := false |}.

(** A push in which the first insert fails and the second is accepted. *)
Definition pushFirstFails : PushEnv :=
  {| push_session := Resolves (Some "u1"); push_parses := sampleJson;
     outbox_get_fault := false;
     iter := λ i, if (i =? 0)%nat then iterOffline else iterOk;
     outbox_set_fault := false |}.


(** A push whose read of the Outbox is rejected by the storage. *)
Definition pushThrows : PushEnv :=
  {| push_session := Resolves (Some "u1"); push_parses := sampleJson;
     outbox_get_fault := true;
     iter := λ _, iterOk; outbox_set_fault := false |}.

(** A pull that answers two rows while the clock reads [now]. *)
Definition pullTwoRows (now : string) : PullEnv :=
  {| pull_session := Resolves (Some "u1"); since_get_fault := false;
     select := Resolves (QData (Some [rowOf 2 "2025-03-01T12:00:00.000Z";
                                      rowOf 1 "2025-03-01T09:00:00.000Z"]));
     pull_parses := sampleJson;
     pull_hist_get_fault := false; pull_hist_set_fault := false;
     nowIso := now; mark_set_fault := false |}.

(** A pull whose query answers an error. *)
Definition pullFails : PullEnv :=
  {| pull_session := Resolves (Some "u1"); since_get_fault := false;
     select := Resolves QError;
     pull_parses := sampleJson;
     pull_hist_get_fault := false; pull_hist_set_fault := false;
     nowIso := "2025-03-03T00:00:00.000Z"; mark_set_fault := false |}.

(** The wall clock was set back to the first of March. *)
Definition clockSetBack : string := "2025-03-01T00:00:00.000Z".

(** [pullServer] has been entered. *)
Definition pullAttempted (w : World) : Prop := entered fn_pullServer ∈ trace w.

Definition pushAttempted (w : World) : Prop := entered fn_pushOutbox ∈ trace w.

(** A pass whose cleanup cannot read its flag. *)
Definition syncFlagUnreadable : SyncEnv :=
  {| purge_env := flagUnreadable; push_env := pushFine;
     pull_env := pullTwoRows "2025-03-03T00:00:00.000Z" |}.

(** A pass whose cleanup cannot delete the legacy keys. *)
Definition syncRemoveFails : SyncEnv :=
  {| purge_env := {| flag_get_fault := false; remove_fault := true;
                     flag_set_fault := false |};
     push_env := pushFine;
     pull_env := pullTwoRows "2025-03-03T00:00:00.000Z" |}.

(** A pass whose push throws while the pull would have succeeded. *)
Definition syncPushThrows : SyncEnv :=
  {| purge_env := storageFine; push_env := pushThrows;
     pull_env := pullTwoRows "2025-03-03T00:00:00.000Z" |}.

(** A pass whose push reports a failed record. *)
Definition syncPushFails : SyncEnv :=
  {| purge_env := storageFine; push_env := pushFirstFails;
     pull_env := pullTwoRows "2025-03-03T00:00:00.000Z" |}.



(** ** Vocabulary of the further properties *)

(** Every set of handlers of the bus lists a handler once. *)
Definition busWf {H} (listeners : gmap string (list H)) : Prop :=
  ∀ event s, listeners !! event = Some s → NoDup s.

(** The handlers subscribed to an event. *)
Definition subscribers {H} (event : string) (listeners : gmap string (list H)) : list H :=
  default [] (listeners !! event).

(** The name is one every object inherits and nothing has been stored
    under it: [listeners[event]] is the inherited member. *)
Definition shadowsNothing {H} (event : string) (listeners : gmap string (list H)) : Prop :=
  event ∈ inheritedNames ∧ listeners !! event = None.

(** The number of calls of [h] among the calls of an [emit]. *)
Definition callsOf {H P} `{EqDecision H} (h : H) (calls : list (H * P)) : nat :=
  length (filter (λ c, fst c = h) calls).

(** The rows handed to [scans.insert] among a run of calls, in order. *)
Definition insertsOf (calls : list Call) : list InsertRow.t :=
  omap (λ c, match c with scans_insert row => Some row | _ => None end) calls.

(** The tenant that goes with a record: its own, else the one the
    membership lookup answers, [null] when it answers an error or no
    tenant. *)
Definition tenantFor (e : IterEnv) (item : LocalScan) : option string :=
  match tenantId item with
  | Some t => Some t
  | None =>
      match membership e with
      | Resolves (QData t) => t
      | Resolves QError | Rejects => None
      end
  end.

(** [row] is the remote row of the record [item] for the user [uid] and
    the tenant [tenant], field by field. *)
Definition rowOfRecord (uid : string) (tenant : option string) (item : LocalScan)
    (row : InsertRow.t) : Prop :=
  InsertRow.user_id row = uid ∧
  InsertRow.tenant_id row = tenant ∧
  InsertRow.created_at row = createdAt item ∧
  InsertRow.type row = codeType item ∧
  InsertRow.value row = payload item ∧
  InsertRow.client_ref row = clientRef item ∧
  InsertRow.meta row = meta item.

(** The record of an iteration is offered to the remote store unless its
    tenant has to be looked up and the lookup rejects. *)
Definition offered1 (e : IterEnv) (item : LocalScan) : list (IterEnv * LocalScan) :=
  match tenantId item, membership e with
  | None, Rejects => []
  | _, _ => [(e, item)]
  end.

(** The records a run of iterations offers, starting at iteration [i],
    each with the answers of its iteration. *)
Fixpoint offered (it : nat → IterEnv) (i : nat) (items : list LocalScan)
  : list (IterEnv * LocalScan) :=
  match items with
  | [] => []
  | item :: rest => offered1 (it i) item ++ offered it (S i) rest
  end.

(** [row] is what is sent for an offered record. *)
Definition sentAs (uid : string) (o : IterEnv * LocalScan) (row : InsertRow.t) : Prop :=
  rowOfRecord uid (tenantFor (fst o) (snd o)) (snd o) row.

(** The priority of a membership, 0 when the lookup gives no number. *)
Definition rank (m : Membership) : Z := default 0%Z (priorityOf (role m)).

(** The role is not a name every object inherits. *)
Definition ordinaryRole (m : Membership) : Prop := is_Some (priorityOf (role m)).

(** The stored tenant id is missing or empty. *)
Definition tenantUnset (w : World) : Prop := truthy (kv w !! TENANT_KEY) = false.

(** ** Further sample data *)

(** A bus on which handler 1 listens to ['scan:insert']. *)
Definition oneListener : gmap string (list nat) :=
  <["scan:insert" := [1%nat]]> ∅.

Definition screenRow (n : Z) : HistoryScreen.Row :=
  {| HistoryScreen.id := n; HistoryScreen.client_ref := "c";
     HistoryScreen.tenant_id := Some "t1"; HistoryScreen.user_id := "u1";
     HistoryScreen.type := qrcode; HistoryScreen.value := "Z";
     HistoryScreen.created_at := "2025-03-01T12:00:00.000Z";
     HistoryScreen.meta := None |}.

Definition online : NetInfoState :=
  {| isConnected := Some true; isInternetReachable := Some true |}.

Definition offline : NetInfoState :=
  {| isConnected := Some true; isInternetReachable := None |}.

(** A pass on which everything answers. *)
Definition syncFine : SyncEnv :=
  {| purge_env := storageFine; push_env := pushFine;
     pull_env := pullTwoRows "2025-03-03T00:00:00.000Z" |}.

(** A push and a pull while nobody is signed in. *)
Definition pushSignedOut : PushEnv :=
  {| push_session := Resolves None; push_parses := sampleJson;
     outbox_get_fault := false;
     iter := λ _, iterOk; outbox_set_fault := false |}.

Definition pullSignedOut : PullEnv :=
  {| pull_session := Resolves None; since_get_fault := false;
     select := Resolves QError;
     pull_parses := sampleJson;
     pull_hist_get_fault := false; pull_hist_set_fault := false;
     nowIso := "2025-03-03T00:00:00.000Z"; mark_set_fault := false |}.

Definition syncSignedOut : SyncEnv :=
  {| purge_env := storageFine; push_env := pushSignedOut; pull_env := pullSignedOut |}.

(** A storage whose Outbox key holds JSON of an object. *)
Definition objectInOutbox : World :=
  {| kv := <[K_OUTBOX := Plain "{}"]> ∅; trace := [] |}.

(** A push whose final write of the Outbox is rejected. *)
Definition pushWriteFails : PushEnv :=
  {| push_session := Resolves (Some "u1"); push_parses := sampleJson;
     outbox_get_fault := false;
     iter := λ _, iterOk; outbox_set_fault := true |}.

(** A cleanup whose deletion is rejected. *)
Definition removeFails : PurgeEnv :=
  {| flag_get_fault := false; remove_fault := true; flag_set_fault := false |}.

(** A storage that still holds a lock of the retired scheme. *)
Definition legacyWorld : World :=
  {| kv := <[K_HISTORY := JsonScans [scanA]]> (<["SYNC_LOCK" := Plain "1"]> ∅);
     trace := [] |}.

Definition memberOf (tenant : string) (r : string) : Membership :=
  {| m_tenant_id := tenant; role := Some r |}.

(** A user who is a member of one tenant and the owner of another. *)
Definition tenantsAnswered : TenantEnv :=
  {| tenant_get_fault := false;
     getUser := Resolves (QData (Some "u1"));
     memberships := Resolves (QData (Some [memberOf "t1" "member";
                                           memberOf "t2" "owner";
                                           memberOf "t3" "admin"]));
     tenant_set_fault := false |}.

(** The remote store is out of reach. *)
Definition tenantsUnreachable : TenantEnv :=
  {| tenant_get_fault := false; getUser := Rejects; memberships := Rejects;
     tenant_set_fault := false |}.

(** A user without any membership. *)
Definition noMembership : TenantEnv :=
  {| tenant_get_fault := false;
     getUser := Resolves (QData (Some "u1"));
     memberships := Resolves (QData (Some []));
     tenant_set_fault := false |}.

Definition tenantStored : World :=
  {| kv := <[TENANT_KEY := Plain "t9"]> ∅; trace := [] |}.

(** A list of scan items holds at most 200 of them, with distinct ids. *)
Definition listSound (l : list ScanScreen.ScanItem) : Prop :=
  (length l ≤ 200)%nat ∧ NoDup (ScanScreen.id <$> l).

(** The list of the scan screen is sound. *)
Definition scanListSound (s : ScanScreen.State) : Prop :=
  listSound (ScanScreen.history s).

(** No item of the list is later than the last accepted event. *)
Definition idsNotLater (s : ScanScreen.State) : Prop :=
  Forall (λ x, (ScanScreen.id x ≤ ScanScreen.lastScannedAt s)%Z) (ScanScreen.history s).

(** An item as the screen stored it in an earlier session. *)
Definition storedScan (at_ : Z) : ScanScreen.ScanItem :=
  {| ScanScreen.id := at_; ScanScreen.value := "4006381333931";
     ScanScreen.type := "ean13"; ScanScreen.ts := at_ |}.

(** * Properties *)

Ltac run :=
  repeat (progress (cbv beta iota delta
    [bind ret throw try_catch await enter consoleLog getItem setItem
     multiRemove readJson asArray writeJson getSession ensureTenantId log];
    cbn [kv trace fst snd])).

(** ** The cleanup *)

Lemma purge_when_cleaned e w :
  flagSet w →
  purgeLegacyArtifactsOnce e w =
    (if flag_get_fault e then Throw else Ok tt, readsFlagOnly w).
Proof.
  unfold flagSet, purgeLegacyArtifactsOnce, readsFlagOnly. intros Hflag. run.
  destruct (flag_get_fault e); cbn [kv trace].
  - by rewrite <- app_assoc.
  - rewrite Hflag. by rewrite <- app_assoc.
Qed.

Lemma purge_ok_sets_flag e w w1 :
  purgeLegacyArtifactsOnce e w = (Ok tt, w1) → flagSet w1.
Proof.
  unfold flagSet, purgeLegacyArtifactsOnce. run.
  destruct (flag_get_fault e); [discriminate|]. cbn [kv trace].
  destruct (truthy (kv w !! K_LEGACY_CLEANED)) eqn:Hflag.
  - intros [= <-]. exact Hflag.
  - destruct (remove_fault e); [discriminate|].
    destruct (flag_set_fault e); [discriminate|]. cbn [kv trace].
    intros [= <-]. cbn [kv]. by rewrite lookup_insert_eq.
Qed.

Lemma purgeAgain_cleaned es : ∀ w,
  flagSet w →
  kv (purgeAgain es w) = kv w ∧
  trace (purgeAgain es w) =
    trace w ++ flat_map (λ _, [entered fn_purgeLegacyArtifactsOnce;
                               AsyncStorage_getItem K_LEGACY_CLEANED]) es.
Proof.
  induction es as [|e es IH]; intros w Hflag; cbn [purgeAgain foldl flat_map].
  - by rewrite app_nil_r.
  - rewrite (purge_when_cleaned e w Hflag). cbn [snd].
    destruct (IH (readsFlagOnly w) Hflag) as [Hkv Htr].
    fold (purgeAgain es (readsFlagOnly w)).
    rewrite Hkv, Htr. cbn [readsFlagOnly kv trace].
    by rewrite <- app_assoc.
Qed.

(** C8.  Once a call of the cleanup has completed, every later call only
    reads the flag: whatever number of calls follows and whether or not
    their read of the flag succeeds, the stored state stays as the first
    call left it, the flag stays set, the calls made are one [getItem] of
    the flag per call (no [multiRemove], no [setItem]), and a call whose
    read succeeds returns normally. *)
Theorem purge_exactly_once (e : PurgeEnv) (w w1 : World) :
  purgeLegacyArtifactsOnce e w = (Ok tt, w1) →
  ∀ es : list PurgeEnv,
    let w2 := purgeAgain es w1 in
    kv w2 = kv w1 ∧
    flagSet w2 ∧
    trace w2 = trace w1 ++ flat_map (λ _, [entered fn_purgeLegacyArtifactsOnce;
                                           AsyncStorage_getItem K_LEGACY_CLEANED]) es ∧
    ∀ e', flag_get_fault e' = false →
          purgeLegacyArtifactsOnce e' w2 = (Ok tt, readsFlagOnly w2).
Proof.
  intros Hfirst es w2.
  pose proof (purge_ok_sets_flag e w w1 Hfirst) as Hflag.
  destruct (purgeAgain_cleaned es w1 Hflag) as [Hkv Htr].
  assert (flagSet w2) as Hflag2.
  { unfold flagSet. subst w2. rewrite Hkv. exact Hflag. }
  repeat split; try done.
  intros e' He'. rewrite (purge_when_cleaned e' w2 Hflag2). by rewrite He'.
Qed.

(** ** The push loop *)

Lemma pushBody_spec uid parses e item st w :
  ∃ w',
    pushBody uid parses e item st w =
      (Ok (if iterFails parses e item (kv w)
           then (fst st, snd st ++ [item])
           else (S (fst st), snd st)), w') ∧
    kv w' = (if iterFails parses e item (kv w) then kv w else confirm uid item (kv w)).
Proof.
  unfold pushBody, iterFails, remoteFailure, histIndex, confirm, notArray. run.
  destruct (tenantId item) as [t|], (membership e) as [[?|]|],
    (insert e) as [err|]; run; cbn [negb orb];
    try (eexists; split; [reflexivity|reflexivity]);
    destruct (accepted err); cbn [negb orb];
    try (eexists; split; [reflexivity|reflexivity]);
    destruct (hist_get_fault e); run; cbn [orb];
    try (eexists; split; [reflexivity|reflexivity]);
    destruct (kv w !! K_HISTORY) as [[s|hist]|]; cbn [orb andb negb];
    try (destruct (String.eqb s ""), (parses s); cbn [orb andb negb]; run);
    try (rewrite ?andb_false_r; eexists; split; [reflexivity|reflexivity]).
  all: destruct (findIndex (localId item) hist) as [idx|]; run;
    try (rewrite andb_false_r; eexists; split; [reflexivity|reflexivity]).
  all: destruct (hist_set_fault e); cbn [andb]; run;
    eexists; (split; [reflexivity|reflexivity]).
Qed.

Lemma sublist_reverse {A} (l k : list A) :
  sublist l k → sublist (reverse l) (reverse k).
Proof.
  induction 1 as [|x l k _ IH|x l k _ IH]; rewrite ?reverse_cons.
  - constructor.
  - apply sublist_app; [exact IH|reflexivity].
  - by apply sublist_inserts_r.
Qed.

Lemma failing_sublist it items : ∀ i, sublist (failing it i items) items.
Proof.
  induction items as [|item rest IH]; intros i; cbn [failing].
  - constructor.
  - destruct (remoteFailure (it i) item); cbn [app].
    + by apply sublist_skip.
    + by apply sublist_cons.
Qed.

(** The loop never throws, and every record ends in exactly one of the two
    accumulators. *)
Lemma pushLoop_counts uid parses it items : ∀ i st w,
  ∃ st' w',
    pushLoop uid parses it i items st w = (Ok st', w') ∧
    (fst st' + length (snd st') = fst st + length (snd st) + length items)%nat.
Proof.
  induction items as [|item rest IH]; intros i st w; cbn [pushLoop].
  - exists st, w. split; [done|]. cbn [length]. lia.
  - destruct (pushBody_spec uid parses (it i) item st w) as (w1 & Hbody & _).
    unfold bind at 1. rewrite Hbody.
    destruct (IH (S i) (if iterFails parses (it i) item (kv w)
                        then (fst st, snd st ++ [item])
                        else (S (fst st), snd st)) w1) as (st' & w' & Hloop & Hsum).
    exists st', w'. split; [exact Hloop|].
    rewrite Hsum. destruct (iterFails parses (it i) item (kv w)); cbn [fst snd length];
      rewrite ?length_app; cbn [length]; lia.
Qed.

Lemma confirm_frame uid item m k :
  k ≠ K_HISTORY → confirm uid item m !! k = m !! k.
Proof.
  intros Hk. unfold confirm. destruct (m !! K_HISTORY) as [[s|hist]|]; try done.
  destruct (findIndex (localId item) hist); [by rewrite lookup_insert_ne|done].
Qed.

Lemma arrayOrNothing_notArray parses o :
  arrayOrNothing o → notArray parses o = false.
Proof. by destruct o as [[s|l]|]. Qed.

Lemma confirm_arrayOrNothing uid item m :
  arrayOrNothing (m !! K_HISTORY) → arrayOrNothing (confirm uid item m !! K_HISTORY).
Proof.
  unfold confirm. destruct (m !! K_HISTORY) as [[s|hist]|] eqn:Hh; rewrite ?Hh; try done.
  destruct (findIndex (localId item) hist); [by rewrite lookup_insert_eq|by rewrite Hh].
Qed.

(** Marking an entry keeps History an array. *)
Lemma confirm_notArray parses uid item m :
  notArray parses (confirm uid item m !! K_HISTORY) = notArray parses (m !! K_HISTORY).
Proof.
  unfold confirm. destruct (m !! K_HISTORY) as [[s|hist]|] eqn:Hh; rewrite ?Hh; try done.
  destruct (findIndex (localId item) hist); [by rewrite lookup_insert_eq|by rewrite Hh].
Qed.

(** With a storage that answers and a History that reads as an array, the
    remote store alone decides which records end on [failures]. *)
Lemma pushLoop_remote uid parses it items : ∀ i st w,
  notArray parses (kv w !! K_HISTORY) = false →
  (∀ j, (j < length items)%nat →
        hist_get_fault (it (i + j)%nat) = false ∧
        hist_set_fault (it (i + j)%nat) = false) →
  ∃ w',
    pushLoop uid parses it i items st w =
      (Ok ((fst st + (length items - length (failing it i items)))%nat,
           snd st ++ failing it i items), w') ∧
    notArray parses (kv w' !! K_HISTORY) = false ∧
    kv w' !! K_OUTBOX = kv w !! K_OUTBOX ∧
    (arrayOrNothing (kv w !! K_HISTORY) → arrayOrNothing (kv w' !! K_HISTORY)).
Proof.
  induction items as [|item rest IH]; intros i st w Harr Hst; cbn [pushLoop failing].
  - exists w. split; [|done]. unfold ret. cbn [length].
    rewrite app_nil_r, Nat.add_0_r. by destruct st.
  - destruct (pushBody_spec uid parses (it i) item st w) as (w1 & Hbody & Hkv).
    unfold bind at 1. rewrite Hbody.
    assert (iterFails parses (it i) item (kv w) = remoteFailure (it i) item) as Hfail.
    { unfold iterFails. destruct (Hst 0%nat) as [Hg Hs]; [cbn [length]; lia|].
      rewrite Nat.add_0_r in Hg, Hs. rewrite Hg, Hs, Harr. cbn [andb].
      by rewrite !orb_false_r. }
    rewrite Hfail in Hkv |- *.
    edestruct (IH (S i)) as (w' & Hloop & Harr' & Hout & Hkeep).
    { rewrite Hkv. destruct (remoteFailure (it i) item); [done|].
      by rewrite confirm_notArray. }
    { intros j Hj. rewrite Nat.add_succ_comm. apply Hst. cbn [length]. lia. }
    exists w'. rewrite Hloop. split; [|split; [exact Harr'|split]].
    + pose proof (sublist_length _ _ (failing_sublist it rest (S i))) as Hlen.
      destruct (remoteFailure (it i) item); cbn [fst snd app length];
        rewrite <- ?app_assoc; cbn [app];
        match goal with |- (Ok (?a, ?l), _) = (Ok (?b, _), _) =>
          replace a with b by lia end; reflexivity.
    + rewrite Hout, Hkv. destruct (remoteFailure (it i) item); [done|].
      by apply confirm_frame.
    + intros Hh. apply Hkeep. rewrite Hkv.
      destruct (remoteFailure (it i) item); [done|]. by apply confirm_arrayOrNothing.
Qed.

(** ** [pushOutbox] *)

(** [pushOutbox] with a session, once the Outbox has been read. *)
Lemma pushOutbox_session e w uid :
  push_session e = Resolves (Some uid) →
  outbox_get_fault e = false →
  pushOutbox e w =
    let w1 := {| kv := kv w;
                 trace := trace w ++ [entered fn_pushOutbox; auth_getSession;
                                      AsyncStorage_getItem K_OUTBOX] |} in
    if notArray (push_parses e) (kv w !! K_OUTBOX) then (Throw, w1)
    else if (length (outboxOf w) =? 0)%nat
    then (Ok {| pushed := 0; failed := None; push_reason := None |}, w1)
    else
      match pushLoop uid (push_parses e) (iter e) 0 (reverse (outboxOf w))
              (0%nat, []) w1 with
      | (Ok st, w2) =>
          (let! _ := writeJson (outbox_set_fault e) K_OUTBOX (reverse (snd st)) in
           ret {| pushed := fst st; failed := Some (length (snd st));
                  push_reason := None |}) w2
      | (Throw, w2) => (Throw, w2)
      end.
Proof.
  intros Hs Hg. unfold pushOutbox. run. rewrite Hs, Hg. cbn [kv trace].
  unfold outboxOf, scansAt, notArray.
  rewrite <- !app_assoc. cbn [app].
  destruct (kv w !! K_OUTBOX) as [[s|l]|]; cbn [length Nat.eqb negb andb];
    try reflexivity.
  - destruct (String.eqb s ""), (push_parses e s); reflexivity.
  - rewrite length_reverse. destruct (length l =? 0)%nat; reflexivity.
Qed.

(** C9.  When [pushOutbox] runs with a session and returns, every record
    that was in the Outbox is counted once: [pushed + failed] is the number
    of records the Outbox held when the call started.  With an empty Outbox
    the result is [{ pushed: 0 }], which has no [failed] field; the missing
    counter counts nothing.  With a non-empty Outbox [failed] is present. *)
Theorem push_counters_conserved (e : PushEnv) (w w' : World) (uid : string)
    (r : PushResult) :
  push_session e = Resolves (Some uid) →
  pushOutbox e w = (Ok r, w') →
  (pushed r + default 0 (failed r))%nat = length (outboxOf w) ∧
  (outboxOf w ≠ [] → failed r = Some (length (outboxOf w) - pushed r)%nat).
Proof.
  intros Hs Hrun.
  destruct (outbox_get_fault e) eqn:Hg.
  { revert Hrun. unfold pushOutbox. run. by rewrite Hs, Hg. }
  rewrite (pushOutbox_session e w uid Hs Hg) in Hrun. cbv zeta in Hrun.
  destruct (notArray (push_parses e) (kv w !! K_OUTBOX)); [discriminate|].
  destruct (length (outboxOf w) =? 0)%nat eqn:Hlen.
  - apply Nat.eqb_eq in Hlen. injection Hrun as <- _.
    cbn [pushed failed from_option id]. split; [lia|].
    intros Hne. by destruct (outboxOf w).
  - apply Nat.eqb_neq in Hlen.
    destruct (pushLoop_counts uid (push_parses e) (iter e) (reverse (outboxOf w)) 0
                (0%nat, [])
                {| kv := kv w;
                   trace := trace w ++ [entered fn_pushOutbox; auth_getSession;
                                        AsyncStorage_getItem K_OUTBOX] |})
      as (st & w2 & Hloop & Hsum).
    rewrite Hloop in Hrun. revert Hrun. run.
    destruct (outbox_set_fault e); [discriminate|].
    intros [= <- _]. cbn [pushed failed from_option id].
    rewrite length_reverse in Hsum. cbn [fst snd length] in Hsum.
    split; [lia|]. intros _. f_equal. lia.
Qed.

(** ** Which errors are duplicates *)

Lemma lower_folds p c :
  (65 <=? nat_of_ascii p)%nat && (nat_of_ascii p <=? 90)%nat = false →
  Ascii.eqb (lower p) (lower c) = true ↔ foldsTo p c.
Proof.
  intros Hp. rewrite Ascii.eqb_eq. unfold lower at 1. rewrite Hp.
  unfold lower, foldsTo.
  pose proof (nat_ascii_bounded c) as Hc.
  apply andb_false_iff in Hp.
  destruct ((65 <=? nat_of_ascii c)%nat && (nat_of_ascii c <=? 90)%nat) eqn:Hcap.
  - apply andb_true_iff in Hcap as [H1 H2]. apply Nat.leb_le in H1, H2. split.
    + intros ->. right. rewrite nat_ascii_embedding by lia. lia.
    + intros [->|(H3 & H4 & H5)].
      * exfalso. destruct Hp as [Hp|Hp]; apply Nat.leb_gt in Hp; lia.
      * rewrite H5. by rewrite ascii_nat_embedding.
  - apply andb_false_iff in Hcap. split.
    + intros ->. by left.
    + intros [->|(H3 & H4 & H5)]; [done|].
      exfalso. destruct Hcap as [Hcap|Hcap]; apply Nat.leb_gt in Hcap; lia.
Qed.

Lemma starts_with_ci_spec pat :
  noCapitals pat = true →
  ∀ s, starts_with_ci pat s = true ↔
       ∃ found after, s = found +:+ after ∧ sameLetters pat found.
Proof.
  induction pat as [|p pat IH]; intros Hpat s; cbn [starts_with_ci].
  - split; [|done]. intros _. exists EmptyString, s. split; [done|constructor].
  - cbn [noCapitals] in Hpat. apply andb_true_iff in Hpat as [Hp Hpat].
    apply negb_true_iff in Hp. destruct s as [|c s].
    + split; [done|]. intros (found & after & Heq & Hsame).
      inversion Hsame; subst. discriminate.
    + rewrite andb_true_iff, (lower_folds p c Hp), (IH Hpat s). split.
      * intros (Hf & found & after & -> & Hsame).
        exists (String c found), after. split; [done|by constructor].
      * intros (found & after & Heq & Hsame). inversion Hsame; subst.
        cbn in Heq. injection Heq as <- ->. split; [done|]. by eexists _, _.
Qed.

(** The search of [/pat/i.test(s)] finds the pattern wherever it is. *)
Lemma regex_test_ci_spec pat :
  noCapitals pat = true →
  ∀ s, regex_test_ci pat s = true ↔ mentions pat s.
Proof.
  intros Hpat s. unfold mentions.
  induction s as [|c s IH]; cbn [regex_test_ci];
    rewrite orb_true_iff, (starts_with_ci_spec pat Hpat).
  - split.
    + intros [(found & after & Heq & Hsame)|?]; [|done].
      by exists EmptyString, found, after.
    + intros (before & found & after & Heq & Hsame). left.
      destruct before; [|discriminate]. by exists found, after.
  - rewrite IH. split.
    + intros [(found & after & Heq & Hsame)|(before & found & after & -> & Hsame)].
      * by exists EmptyString, found, after.
      * by exists (String c before), found, after.
    + intros (before & found & after & Heq & Hsame). destruct before as [|b before].
      * left. by exists found, after.
      * right. cbn in Heq. injection Heq as <- ->. by exists before, found, after.
Qed.

(** The test of the loop accepts exactly the errors that report a violated
    uniqueness constraint. *)
Lemma isDuplicate_spec err : isDuplicate err = true ↔ uniqueViolation err.
Proof.
  unfold isDuplicate, uniqueViolation.
  rewrite orb_true_iff, (regex_test_ci_spec "duplicate key" eq_refl). split.
  - intros [Hc|Hm].
    + left. destruct (code err) as [c|]; [|done]. by apply String.eqb_eq in Hc as ->.
    + destruct (message err) as [msg|]; [right; by exists msg|].
      destruct Hm as (before & found & after & Heq & Hsame).
      inversion Hsame; subst. by destruct before.
  - intros [->|(msg & -> & Hm)]; [by left|by right].
Qed.

Lemma remoteFailure_spec e item :
  remoteFailure e item = true ↔ failsRemotely e item.
Proof.
  unfold remoteFailure, failsRemotely.
  assert (∀ r : Reply (option PgError),
            match r with Rejects => true | Resolves err => negb (accepted err) end = true ↔
            r = Rejects ∨ ∃ err, r = Resolves (Some err) ∧ ¬ uniqueViolation err) as Hins.
  { intros [[err|]|]; cbn [accepted negb].
    - rewrite negb_true_iff, <- not_true_iff_false, isDuplicate_spec. split.
      + intros Hn. right. by exists err.
      + intros [?|(err' & [= <-] & Hn)]; done.
    - split; [done|]. intros [?|(err' & ? & _)]; done.
    - split; [by left|done]. }
  destruct (tenantId item) as [t|]; [|destruct (membership e) as [q|] eqn:Hm].
  - rewrite Hins. split; [by right|]. by intros [[? _]|?].
  - rewrite Hins. split; [by right|]. by intros [[_ ?]|?].
  - split; [by left|done].
Qed.

(** C2.  With a session, a storage that answers and the Outbox and
    History keys holding what the module writes there (an array of scans
    each, or nothing), the remote store alone decides the fate of each
    record: of the [N] records of the Outbox, the [M] that the remote
    store fails are what the Outbox holds afterwards, as they were and in
    their original order, and the other [N - M] are gone from it; [pushed]
    is [N - M] and [failed] is [M]; and the two keys still hold arrays.
    The remote store fails a record when the membership lookup it needs
    rejects, when the insert rejects, or when the insert answers an error
    other than a violated uniqueness constraint (code 23505, or a message
    that contains "duplicate key" in any letter case). *)
Theorem push_keeps_exactly_the_failed (e : PushEnv) (w : World) (uid : string) :
  push_session e = Resolves (Some uid) →
  storageHolds e (length (outboxOf w)) →
  arraysStored w →
  let N := length (outboxOf w) in
  let kept := reverse (failing (iter e) 0 (reverse (outboxOf w))) in
  let M := length kept in
  (∀ i item, remoteFailure (iter e i) item = true ↔ failsRemotely (iter e i) item) ∧
  ∃ r w',
    pushOutbox e w = (Ok r, w') ∧
    outboxOf w' = kept ∧
    sublist kept (outboxOf w) ∧
    (M ≤ N)%nat ∧
    pushed r = (N - M)%nat ∧
    default 0%nat (failed r) = M ∧
    arraysStored w'.
Proof.
  intros Hs (Hg & Hset & Hiter) [Hout0 Hhist0] N kept M.
  pose proof (arrayOrNothing_notArray (push_parses e) _ Hout0) as Hout.
  pose proof (arrayOrNothing_notArray (push_parses e) _ Hhist0) as Hhist.
  split; [intros i item; apply remoteFailure_spec|].
  assert (sublist kept (outboxOf w)) as Hsub.
  { subst kept. rewrite <- (reverse_involutive (outboxOf w)) at 2.
    apply sublist_reverse, failing_sublist. }
  pose proof (sublist_length _ _ Hsub) as Hle.
  rewrite (pushOutbox_session e w uid Hs Hg). cbv zeta. rewrite Hout.
  destruct (length (outboxOf w) =? 0)%nat eqn:Hlen.
  - apply Nat.eqb_eq in Hlen.
    assert (outboxOf w = []) as Hnil by (by destruct (outboxOf w)).
    eexists _, _. split; [reflexivity|].
    subst N M kept. rewrite Hnil in *.
    unfold arraysStored, outboxOf, scansAt in *. cbn [kv]. rewrite Hnil.
    repeat split; cbn; done.
  - match goal with |- context [pushLoop uid _ _ 0 _ ?st ?w1] =>
      destruct (pushLoop_remote uid (push_parses e) (iter e) (reverse (outboxOf w)) 0
                  st w1) as (w2 & Hloop & _ & _ & Hhist')
    end.
    { exact Hhist. }
    { intros j Hj. rewrite length_reverse in Hj. apply (Hiter j Hj). }
    rewrite Hloop. run. rewrite Hset. cbn [fst snd app].
    eexists _, _. split; [reflexivity|].
    unfold arraysStored, outboxOf at 1, scansAt at 1. cbn [kv].
    rewrite lookup_insert_eq, lookup_insert_ne by done.
    fold kept. cbn [pushed failed from_option id notArray].
    rewrite !length_reverse. subst M kept. rewrite length_reverse.
    repeat split; try done; [by rewrite length_reverse in Hle|by apply Hhist'].
Qed.


(** [findIndex] finds the first entry with the given [localId]. *)
Lemma findIndex_Some id hist : ∀ idx,
  findIndex id hist = Some idx →
  ∃ h, hist !! idx = Some h ∧ localId h = id ∧
       ∀ j h', (j < idx)%nat → hist !! j = Some h' → localId h' ≠ id.
Proof.
  induction hist as [|h0 hist IH]; intros idx; cbn [findIndex]; [done|].
  destruct (String.eqb_spec (localId h0) id) as [Heq|Hne].
  - intros [= <-]. exists h0. repeat split; [done|]. intros j h' Hj. lia.
  - destruct (findIndex id hist) as [k|] eqn:Hk; [|done].
    cbn. intros [= <-]. destruct (IH k eq_refl) as (h & Hh & Hid & Hfirst).
    exists h. repeat split; [done..|].
    intros [|j] h' Hj; cbn; [by intros [= <-]|].
    apply Hfirst. lia.
Qed.



Lemma marked_markSynced uid a : marked uid a (markSynced uid a).
Proof. repeat split. Qed.

(** The marking leaves no freedom: the marked entry is determined. *)
Lemma marked_unique uid a b : marked uid a b → b = markSynced uid a.
Proof.
  destruct b. unfold marked, markSynced. cbn.
  intros (-> & -> & -> & -> & -> & -> & -> & -> & -> & ->). reflexivity.
Qed.




(** ** What a push does to History *)

Lemma touched_refl uid ids a : touched uid ids a a.
Proof. by left. Qed.

Lemma touched_mono uid ids ids' a b :
  ids ⊆ ids' → touched uid ids a b → touched uid ids' a b.
Proof. intros Hsub [->|[Hm Hin]]; [by left|right; split; [done|by apply Hsub]]. Qed.

Lemma touched_trans uid ids a b c :
  touched uid ids a b → touched uid ids b c → touched uid ids a c.
Proof.
  intros [->|[Hab Hin]] Hbc; [done|].
  destruct Hbc as [->|[Hbc _]]; right; (split; [|done]); [done|].
  apply marked_unique in Hab as ->. apply marked_unique in Hbc as ->.
  repeat split.
Qed.

Lemma touched_serverId uid ids a b : touched uid ids a b → serverId b = serverId a.
Proof. intros [->|[Hm _]]; [done|]. by apply marked_unique in Hm as ->. Qed.

Lemma touched_all_serverId uid ids hist hist' :
  Forall2 (touched uid ids) hist hist' → omap serverId hist' = omap serverId hist.
Proof.
  induction 1 as [|a b hist hist' Hab _ IH]; [done|].
  change (omap serverId (b :: hist')) with
    (match serverId b with Some y => y :: omap serverId hist' | None => omap serverId hist' end).
  change (omap serverId (a :: hist)) with
    (match serverId a with Some y => y :: omap serverId hist | None => omap serverId hist end).
  by rewrite (touched_serverId _ _ _ _ Hab), IH.
Qed.

Lemma pushedOver_refl uid ids m : pushedOver uid ids m m.
Proof. split; [done|by left]. Qed.

Lemma pushedOver_mono uid ids ids' m m' :
  ids ⊆ ids' → pushedOver uid ids m m' → pushedOver uid ids' m m'.
Proof.
  intros Hsub [Hframe [Heq|(hist & hist' & H1 & H2 & Hall)]]; split; try done.
  - by left.
  - right. exists hist, hist'. repeat split; try done.
    eapply Forall2_impl; [exact Hall|]. intros a b. by apply touched_mono.
Qed.

Lemma pushedOver_trans uid ids m1 m2 m3 :
  pushedOver uid ids m1 m2 → pushedOver uid ids m2 m3 → pushedOver uid ids m1 m3.
Proof.
  intros [Hf1 H1] [Hf2 H2]. split.
  { intros k Hk. by rewrite Hf2, Hf1. }
  destruct H1 as [Heq1|(h1 & h2 & Ha & Hb & Hall1)].
  - rewrite <- Heq1. destruct H2 as [Heq2|(h2 & h3 & Hb & Hc & Hall2)];
      [by left|right; by exists h2, h3].
  - destruct H2 as [Heq2|(h2' & h3 & Hb' & Hc & Hall2)].
    + right. exists h1, h2. by rewrite Heq2.
    + right. assert (h2' = h2) as -> by congruence.
      exists h1, h3. repeat split; try done.
      eapply Forall2_trans; [|exact Hall1|exact Hall2].
      intros a b c. apply touched_trans.
Qed.

Lemma confirm_pushedOver uid item m :
  pushedOver uid [localId item] m (confirm uid item m).
Proof.
  unfold confirm.
  destruct (m !! K_HISTORY) as [[s|hist]|] eqn:Hh; try apply pushedOver_refl.
  destruct (findIndex (localId item) hist) as [idx|] eqn:Hidx;
    [|apply pushedOver_refl].
  split.
  { intros k Hk. by rewrite lookup_insert_ne. }
  right. exists hist, (alter (markSynced uid) idx hist).
  rewrite lookup_insert_eq. repeat split; try done.
  apply Forall2_alter_r.
  - apply Forall_Forall2_diag, Forall_forall. intros a _. apply touched_refl.
  - intros a b Ha Hb _. assert (b = a) as -> by congruence.
    right. split; [apply marked_markSynced|].
    destruct (findIndex_Some _ _ _ Hidx) as (h & Hh' & Hid & _).
    assert (h = a) as -> by congruence. rewrite Hid. by apply list_elem_of_singleton.
Qed.

Lemma pushLoop_history uid parses it items : ∀ i st w,
  ∃ st' w',
    pushLoop uid parses it i items st w = (Ok st', w') ∧
    pushedOver uid (localId <$> confirmed it i items) (kv w) (kv w').
Proof.
  induction items as [|item rest IH]; intros i st w; cbn [pushLoop confirmed].
  - exists st, w. split; [done|apply pushedOver_refl].
  - destruct (pushBody_spec uid parses (it i) item st w) as (w1 & Hbody & Hkv).
    unfold bind at 1. rewrite Hbody.
    edestruct (IH (S i)) as (st' & w' & Hloop & Hrel).
    exists st', w'. split; [exact Hloop|].
    eapply pushedOver_trans; [|eapply pushedOver_mono; [|exact Hrel]].
    + rewrite Hkv. unfold iterFails.
      destruct (remoteFailure (it i) item); cbn [orb]; [apply pushedOver_refl|].
      destruct (_ || _); [apply pushedOver_refl|].
      eapply pushedOver_mono; [|apply confirm_pushedOver].
      cbn [app fmap list_fmap]. intros x Hx. apply list_elem_of_singleton in Hx as ->.
      apply list_elem_of_here.
    + rewrite fmap_app. intros x Hx. apply elem_of_app. by right.
Qed.

Lemma touched_all_serverIds uid ids hist hist' :
  Forall2 (touched uid ids) hist hist' → serverId <$> hist' = serverId <$> hist.
Proof.
  induction 1 as [|a b hist hist' Hab _ IH]; [done|].
  rewrite !fmap_cons. by rewrite (touched_serverId _ _ _ _ Hab), IH.
Qed.

(** The storage after a call of [pushOutbox], whatever its outcome. *)
Lemma pushOutbox_storage e w :
  kv (snd (pushOutbox e w)) = kv w ∨
  ∃ uid m,
    push_session e = Resolves (Some uid) ∧
    pushedOver uid (localId <$> confirmed (iter e) 0 (reverse (outboxOf w))) (kv w) m ∧
    (kv (snd (pushOutbox e w)) = m ∨
     ∃ fs, kv (snd (pushOutbox e w)) = <[K_OUTBOX := JsonScans fs]> m).
Proof.
  destruct (push_session e) as [[uid|]|] eqn:Hs.
  2,3: left; unfold pushOutbox; run; rewrite Hs; reflexivity.
  destruct (outbox_get_fault e) eqn:Hg.
  { left. unfold pushOutbox. run. rewrite Hs, Hg. reflexivity. }
  rewrite (pushOutbox_session e w uid Hs Hg). cbv zeta.
  destruct (notArray (push_parses e) (kv w !! K_OUTBOX)); [by left|].
  destruct (length (outboxOf w) =? 0)%nat; [by left|].
  match goal with |- context [pushLoop uid ?ps ?it 0 ?items ?st ?w1] =>
    destruct (pushLoop_history uid ps it items 0 st w1) as (st' & w2 & Hloop & Hrel)
  end.
  rewrite Hloop. cbn [kv] in Hrel. right. exists uid, (kv w2).
  split; [done|]. split; [exact Hrel|]. run.
  destruct (outbox_set_fault e); cbn [snd kv]; [by left|right; by eexists].
Qed.

(** The ids a pull skips depend on History through its [serverId]s only. *)
Lemma elem_of_byServerId hist s :
  s ∈ byServerId hist ↔ s ≠ "" ∧ ∃ h, h ∈ hist ∧ serverId h = Some s.
Proof.
  unfold byServerId. rewrite elem_of_list_to_set, list_elem_of_omap. split.
  - intros (h & Hh & Hs). apply list_elem_of_filter in Hh as [Ht Hh].
    split; [|by exists h]. rewrite Hs in Ht. cbn in Ht.
    intros ->. by cbn in Ht.
  - intros (Hne & h & Hh & Hs). exists h. split; [|done].
    apply list_elem_of_filter. split; [|done]. rewrite Hs. cbn.
    by destruct (String.eqb_spec s "").
Qed.

Lemma byServerId_serverIds hist hist' :
  serverId <$> hist' = serverId <$> hist → byServerId hist' = byServerId hist.
Proof.
  intros Heq. apply set_eq. intros s. rewrite !elem_of_byServerId.
  assert (∀ l : list LocalScan,
            (∃ h, h ∈ l ∧ serverId h = Some s) ↔ Some s ∈ serverId <$> l) as Hmem.
  { intros l. rewrite list_elem_of_fmap. split.
    - intros (h & Hh & Hs). by exists h.
    - intros (h & Hs & Hh). by exists h. }
  by rewrite !Hmem, Heq.
Qed.

(** C10.  Whatever its outcome, [pushOutbox] leaves every key other than
    the Outbox and History alone, and History is either untouched or holds
    the same entries at the same positions, each one either as it was or
    marked as synced ([synced] is true, [userId] is the session's user,
    and [localId], [serverId], [tenantId], [createdAt], [codeType],
    [payload], [clientRef] and [meta] are what they were), the latter only
    for an entry whose [localId] is that of a record of the Outbox the
    remote store let through, that is, did not fail.  No [serverId]
    changes: an entry without one before the push is without one after it,
    and the set of ids a later pull skips is the one it would have skipped
    before the push. *)
Theorem push_marks_only_confirmed (e : PushEnv) (w : World) :
  let w' := snd (pushOutbox e w) in
  (∀ k, k ≠ K_HISTORY → k ≠ K_OUTBOX → kv w' !! k = kv w !! k) ∧
  (kv w' !! K_HISTORY = kv w !! K_HISTORY ∨
   ∃ uid hist hist',
     push_session e = Resolves (Some uid) ∧
     kv w !! K_HISTORY = Some (JsonScans hist) ∧
     kv w' !! K_HISTORY = Some (JsonScans hist') ∧
     Forall2 (touched uid (localId <$> confirmed (iter e) 0 (reverse (outboxOf w))))
             hist hist') ∧
  serverId <$> historyOf w' = serverId <$> historyOf w ∧
  byServerId (historyOf w') = byServerId (historyOf w) ∧
  (∀ i item, remoteFailure (iter e i) item = true ↔ failsRemotely (iter e i) item).
Proof.
  intros w'. subst w'.
  assert (∀ m fs, (<[K_OUTBOX := JsonScans fs]> m : gmap string Text) !! K_HISTORY
                  = m !! K_HISTORY) as Hob.
  { intros m fs. by rewrite lookup_insert_ne. }
  assert (serverId <$> historyOf (snd (pushOutbox e w)) = serverId <$> historyOf w)
    as Hids.
  { unfold historyOf, scansAt.
    destruct (pushOutbox_storage e w)
      as [->|(uid & m & Hs & [Hframe Hhist] & [->| [fs ->]])]; [done| |rewrite Hob].
    all: destruct Hhist as [->|(hist & hist' & -> & -> & Hall)]; [done|].
    all: by eapply touched_all_serverIds. }
  split; [|split; [|split; [exact Hids|split; [by apply byServerId_serverIds|]]]];
    [| |intros i item; apply remoteFailure_spec].
  - destruct (pushOutbox_storage e w)
      as [->|(uid & m & Hs & [Hframe Hhist] & [->| [fs ->]])]; [done| |].
    + intros k Hk _. by apply Hframe.
    + intros k Hk Hk'. rewrite lookup_insert_ne by done. by apply Hframe.
  - destruct (pushOutbox_storage e w)
      as [->|(uid & m & Hs & [Hframe Hhist] & [->| [fs ->]])]; [by left| |rewrite Hob].
    all: destruct Hhist as [Heq|(hist & hist' & H1 & H2 & Hall)]; [by left|].
    all: right; by exists uid, hist, hist'.
Qed.

(** ** The pull *)

Lemma pretty_N_go_nonempty x s : s ≠ "" → pretty_N_go x s ≠ "".
Proof.
  revert s. induction (N.lt_wf_0 x) as [x _ IH]; intros s Hs.
  assert (x = 0 ∨ 0 < x)%N as [->|Hpos] by lia.
  - by rewrite pretty_N_go_0.
  - rewrite pretty_N_go_step by done. apply IH; [by apply N.div_lt|done].
Qed.

(** [String(id)] is never the empty string. *)
Lemma idStr_nonempty row : idStr row ≠ "".
Proof.
  unfold idStr, pretty, pretty_Z. destruct (DbRow.id row) as [|p|p]; [done| |done].
  unfold pretty, pretty_positive, pretty, pretty_N.
  destruct (decide _) as [?|_]; [done|].
  rewrite pretty_N_go_step by lia. by apply pretty_N_go_nonempty.
Qed.

Lemma idStr_inj r1 r2 : idStr r1 = idStr r2 → DbRow.id r1 = DbRow.id r2.
Proof. unfold idStr. apply (inj pretty). Qed.

Lemma sortInsert_perm {A} (cmp : A → A → Z) x l : sortInsert cmp x l ≡ₚ x :: l.
Proof.
  induction l as [|y l IH]; cbn [sortInsert]; [done|].
  destruct (cmp x y <=? 0)%Z; [done|]. rewrite IH. apply perm_swap.
Qed.

(** The sort permutes the array. *)
Lemma arraySort_perm {A} (cmp : A → A → Z) l : arraySort cmp l ≡ₚ l.
Proof.
  unfold arraySort. induction l as [|x l IH]; cbn [foldr]; [done|].
  by rewrite sortInsert_perm, IH.
Qed.

Lemma merge_fold known rows : ∀ st,
  foldl (mergeRow known) st rows =
    (fst st ++ (fromRow <$> fresh known rows),
     (snd st + length (fresh known rows))%nat).
Proof.
  unfold fresh.
  induction rows as [|row rows IH]; intros [hist n]; cbn [foldl fst snd].
  - by rewrite app_nil_r, Nat.add_0_r.
  - rewrite filter_cons. unfold mergeRow at 2.
    destruct (decide (idStr row ∈ known)) as [Hin|Hout].
    + rewrite decide_False by (intros Hn; by apply Hn). apply IH.
    + rewrite decide_True by done. rewrite IH. cbn [fst snd fmap list_fmap length].
      rewrite <- app_assoc. cbn [app]. f_equal. lia.
Qed.

Lemma omap_serverId_fromRow (rows : list DbRow.t) : omap serverId (fromRow <$> rows) = idStr <$> rows.
Proof.
  induction rows as [|row rows IH]; [done|].
  rewrite !fmap_cons, <- IH. reflexivity.
Qed.

(** Merging an answer whose rows are distinct keeps the [serverId]s of
    History distinct. *)
Lemma pulledHistory_unique hist rows :
  NoDup (DbRow.id <$> rows) →
  serverIdsUnique hist →
  serverIdsUnique (pulledHistory hist rows).
Proof.
  unfold serverIdsUnique, pulledHistory. intros Hrows Hhist.
  rewrite arraySort_perm, merge_fold. cbn [fst].
  rewrite omap_app, omap_serverId_fromRow. apply NoDup_app. repeat split.
  - exact Hhist.
  - intros s Hs Hnew. apply list_elem_of_fmap in Hnew as (row & -> & Hrow).
    apply list_elem_of_filter in Hrow as [Hfresh _]. apply Hfresh.
    apply elem_of_byServerId. split; [apply idStr_nonempty|].
    by apply list_elem_of_omap in Hs.
  - apply (NoDup_fmap_2_strong idStr).
    + intros r1 r2 Hr1 Hr2 Heq. apply idStr_inj in Heq.
      apply list_elem_of_filter in Hr1 as [_ Hr1], Hr2 as [_ Hr2].
      clear -Hrows Hr1 Hr2 Heq. induction rows as [|r rows IH]; [by inv Hr1|].
      rewrite fmap_cons in Hrows. apply NoDup_cons in Hrows as [Hnot Hnd].
      inv Hr1; inv Hr2; try done.
      * destruct Hnot. rewrite Heq. by apply list_elem_of_fmap_2.
      * destruct Hnot. rewrite <- Heq. by apply list_elem_of_fmap_2.
      * by apply IH.
    + apply NoDup_filter. by apply NoDup_fmap_1 in Hrows.
Qed.

(** The storage after a call of [pullServer]: untouched, or History merged
    (when the write of the watermark rejects), or History merged and the
    watermark set to the clock's reading. *)
Lemma pullServer_storage e w :
  kv (snd (pullServer e w)) = kv w ∨
  ∃ data,
    select e = Resolves (QData data) ∧
    let merged := JsonScans (pulledHistory (historyOf w) (default [] data)) in
    kv (snd (pullServer e w)) = <[K_HISTORY := merged]> (kv w) ∨
    (kv (snd (pullServer e w)) =
       <[K_LASTPULLED_AT := Plain (nowIso e)]> (<[K_HISTORY := merged]> (kv w)) ∧
     ∃ n, fst (pullServer e w) = Ok {| pulled := n; pull_reason := None |}).
Proof.
  unfold pullServer, pulledHistory, historyOf, scansAt. run.
  destruct (pull_session e) as [[uid|]|]; cbn [snd kv]; try by left.
  destruct (since_get_fault e); cbn [snd kv]; try by left.
  destruct (select e) as [[data|]|]; cbn [snd kv]; try by left.
  destruct (pull_hist_get_fault e); cbn [snd kv]; try by left.
  destruct (kv w !! K_HISTORY) as [[s|hist]|];
    [destruct (String.eqb s ""), (pull_parses e s)| |]; cbn [snd kv]; try by left.
  all: destruct (pull_hist_set_fault e); cbn [snd kv]; try by left.
  all: right; exists data; (split; [done|]); cbv zeta.
  all: destruct (mark_set_fault e); cbn [fst snd kv]; [by left|].
  all: right; (split; [done|]); by eexists.
Qed.

Lemma pullServer_history e w :
  historyOf (snd (pullServer e w)) = historyOf w ∨
  ∃ data,
    select e = Resolves (QData data) ∧
    historyOf (snd (pullServer e w)) = pulledHistory (historyOf w) (default [] data).
Proof.
  destruct (pullServer_storage e w) as [Heq|(data & Hsel & [Heq|[Heq _]])].
  - left. unfold historyOf, scansAt. by rewrite Heq.
  - right. exists data. split; [done|]. unfold historyOf at 1, scansAt at 1.
    rewrite Heq. by rewrite lookup_insert_eq.
  - right. exists data. split; [done|]. unfold historyOf at 1, scansAt at 1.
    rewrite Heq. rewrite lookup_insert_ne by done. by rewrite lookup_insert_eq.
Qed.

Lemma pullServer_unique e w :
  rowsDistinct e →
  serverIdsUnique (historyOf w) →
  serverIdsUnique (historyOf (snd (pullServer e w))).
Proof.
  intros Hrows Hinv.
  destruct (pullServer_history e w) as [->|(data & Hsel & ->)]; [done|].
  unfold rowsDistinct in Hrows. rewrite Hsel in Hrows.
  destruct data as [rows|]; cbn [from_option id].
  - by apply pulledHistory_unique.
  - apply pulledHistory_unique; [constructor|done].
Qed.

Lemma pushOutbox_unique e w :
  serverIdsUnique (historyOf w) →
  serverIdsUnique (historyOf (snd (pushOutbox e w))).
Proof.
  unfold serverIdsUnique, historyOf, scansAt.
  destruct (pushOutbox_storage e w)
    as [->|(uid & m & _ & [_ Hhist] & Hout)]; [done|].
  assert (kv (snd (pushOutbox e w)) !! K_HISTORY = m !! K_HISTORY) as ->.
  { destruct Hout as [->|[fs ->]]; [done|]. by rewrite lookup_insert_ne. }
  destruct Hhist as [->|(hist & hist' & -> & -> & Hall)]; [done|].
  by rewrite (touched_all_serverId _ _ _ _ Hall).
Qed.

(** A pull that meets no failure. *)
Lemma pullServer_success e w uid data :
  pull_session e = Resolves (Some uid) →
  since_get_fault e = false →
  select e = Resolves (QData data) →
  pull_hist_get_fault e = false →
  notArray (pull_parses e) (kv w !! K_HISTORY) = false →
  pull_hist_set_fault e = false →
  mark_set_fault e = false →
  ∃ w',
    pullServer e w =
      (Ok {| pulled := length (fresh (byServerId (historyOf w)) (default [] data));
             pull_reason := None |}, w') ∧
    kv w' = <[K_LASTPULLED_AT := Plain (nowIso e)]>
              (<[K_HISTORY := JsonScans (pulledHistory (historyOf w) (default [] data))]>
                 (kv w)).
Proof.
  intros Hs Hg Hq Hhg Harr Hhs Hm.
  replace (length (fresh (byServerId (historyOf w)) (default [] data)))
    with (snd (foldl (mergeRow (byServerId (historyOf w))) (historyOf w, 0%nat)
                 (default [] data)))
    by (by rewrite merge_fold).
  revert Harr. unfold pullServer, pulledHistory, historyOf, scansAt, notArray. run.
  rewrite Hs, Hg, Hq, Hhg, Hhs, Hm. cbn [kv trace].
  destruct (kv w !! K_HISTORY) as [[s|hist]|];
    [destruct (String.eqb s ""), (pull_parses e s)| |]; cbn [negb andb];
    try discriminate; intros _; eexists; (split; reflexivity).
Qed.

(** A pull returns a count only on the path that meets no failure. *)
Lemma pullServer_count_path e w n :
  fst (pullServer e w) = Ok {| pulled := n; pull_reason := None |} →
  ∃ uid data,
    pull_session e = Resolves (Some uid) ∧ since_get_fault e = false ∧
    select e = Resolves (QData data) ∧ pull_hist_get_fault e = false ∧
    notArray (pull_parses e) (kv w !! K_HISTORY) = false ∧
    pull_hist_set_fault e = false ∧ mark_set_fault e = false.
Proof.
  unfold pullServer, notArray. run.
  destruct (pull_session e) as [[uid|]|]; cbn [fst]; try discriminate.
  destruct (since_get_fault e); cbn [fst]; try discriminate.
  destruct (select e) as [[data|]|]; cbn [fst]; try discriminate.
  destruct (pull_hist_get_fault e); cbn [fst kv]; try discriminate.
  destruct (kv w !! K_HISTORY) as [[s|hist]|];
    [destruct (String.eqb s ""), (pull_parses e s)| |]; cbn [fst negb andb];
    try discriminate.
  all: destruct (pull_hist_set_fault e); cbn [fst]; try discriminate.
  all: destruct (mark_set_fault e); cbn [fst]; try discriminate.
  all: intros _; by exists uid, data.
Qed.

(** Every row of an answer is known once the answer has been merged. *)
Lemma fresh_after_merge hist rows :
  fresh (byServerId (pulledHistory hist rows)) rows = [].
Proof.
  assert (∀ row, row ∈ rows → idStr row ∈ byServerId (pulledHistory hist rows))
    as Hknown.
  { intros row Hrow. apply elem_of_byServerId. split; [apply idStr_nonempty|].
    unfold pulledHistory. rewrite merge_fold. cbn [fst].
    destruct (decide (idStr row ∈ byServerId hist)) as [Hin|Hout].
    - apply elem_of_byServerId in Hin as (_ & h & Hh & Hsid).
      exists h. split; [|done]. rewrite arraySort_perm. apply elem_of_app. by left.
    - exists (fromRow row). split; [|done]. rewrite arraySort_perm.
      apply elem_of_app. right. apply list_elem_of_fmap_2.
      by apply list_elem_of_filter. }
  unfold fresh. revert Hknown. generalize (byServerId (pulledHistory hist rows)).
  intros known. induction rows as [|row rows IH]; intros Hknown; [done|].
  rewrite filter_cons, decide_False.
  - apply IH. intros r Hr. apply Hknown. by apply list_elem_of_further.
  - intros Hn. apply Hn, Hknown, list_elem_of_here.
Qed.

(** C4.  No two entries of History share a [serverId] that is not null:
    it holds of a History that has never been written, every call of
    [pushOutbox] preserves it whatever its outcome, and so does every call
    of [pullServer] whose query answers with the rows of the remote table,
    each listed once ([id] is the table's key).  In particular two pulls
    one after the other over the same rows leave the [serverId]s distinct. *)
Theorem history_serverIds_stay_unique :
  (∀ w, kv w !! K_HISTORY = None → serverIdsUnique (historyOf w)) ∧
  (∀ e w, serverIdsUnique (historyOf w) →
          serverIdsUnique (historyOf (snd (pushOutbox e w)))) ∧
  (∀ e w, rowsDistinct e →
          serverIdsUnique (historyOf w) →
          serverIdsUnique (historyOf (snd (pullServer e w)))) ∧
  (∀ e1 e2 w, select e2 = select e1 →
              rowsDistinct e1 →
              serverIdsUnique (historyOf w) →
              serverIdsUnique
                (historyOf (snd (pullServer e2 (snd (pullServer e1 w)))))).
Proof.
  split; [|split; [|split]].
  - intros w Hnone. unfold historyOf, scansAt, serverIdsUnique. rewrite Hnone.
    constructor.
  - apply pushOutbox_unique.
  - apply pullServer_unique.
  - intros e1 e2 w Hsame Hrows Hinv.
    apply pullServer_unique; [|by apply pullServer_unique].
    unfold rowsDistinct in *. by rewrite Hsame.
Qed.

(** C6.  When the query of [pullServer] answers an error, the call returns
    [{ pulled: 0, reason: 'pull-error' }] and has stored nothing: the
    storage is what it was, so the watermark and History are, and the only
    calls made are the session lookup, the read of the watermark and the
    query. *)
Theorem pull_error_changes_nothing (e : PullEnv) (w : World) (uid : string) :
  pull_session e = Resolves (Some uid) →
  since_get_fault e = false →
  select e = Resolves QError →
  ∃ w',
    pullServer e w = (Ok {| pulled := 0; pull_reason := Some pull_error |}, w') ∧
    kv w' = kv w ∧
    watermark w' = watermark w ∧
    historyOf w' = historyOf w ∧
    trace w' = trace w ++ [entered fn_pullServer; auth_getSession;
                           AsyncStorage_getItem K_LASTPULLED_AT;
                           scans_select (watermark w)].
Proof.
  intros Hs Hg Hq. unfold pullServer. run. rewrite Hs, Hg, Hq. cbn [kv trace].
  eexists. split; [reflexivity|]. cbn [kv trace].
  unfold watermark, historyOf, scansAt. cbn [kv].
  repeat split. by rewrite <- !app_assoc.
Qed.

Lemma string_compare_refl s : String.compare s s = Eq.
Proof.
  pose proof (String.compare_antisym s s) as H.
  destruct (String.compare s s); done.
Qed.

Lemma notLater_refl a : notLater a a.
Proof.
  destruct a as [s|l]; cbn; [|done].
  unfold String.leb. by rewrite string_compare_refl.
Qed.

(** The cell of the watermark after a call of [pullServer], by the way
    the call ends. *)
Lemma pullServer_watermark e w :
  match fst (pullServer e w) with
  | Ok r =>
      match pull_reason r with
      | None =>
          kv (snd (pullServer e w)) !! K_LASTPULLED_AT = Some (Plain (nowIso e))
      | Some _ =>
          kv (snd (pullServer e w)) !! K_LASTPULLED_AT = kv w !! K_LASTPULLED_AT
      end
  | Throw => kv (snd (pullServer e w)) !! K_LASTPULLED_AT = kv w !! K_LASTPULLED_AT
  end.
Proof.
  unfold pullServer. run.
  destruct (pull_session e) as [[uid|]|]; cbn [fst snd kv pull_reason]; try done.
  destruct (since_get_fault e); cbn [fst snd kv pull_reason]; try done.
  destruct (select e) as [[data|]|]; cbn [fst snd kv pull_reason]; try done.
  destruct (pull_hist_get_fault e); cbn [fst snd kv pull_reason]; try done.
  destruct (kv w !! K_HISTORY) as [[s|hist]|];
    [destruct (String.eqb s ""), (pull_parses e s)| |];
    cbn [fst snd kv pull_reason]; try done.
  all: destruct (pull_hist_set_fault e); cbn [fst snd kv pull_reason]; try done.
  all: destruct (mark_set_fault e); cbn [fst snd kv pull_reason].
  all: first [by rewrite lookup_insert_ne|by rewrite lookup_insert_eq].
Qed.

(** C5, as the code has it.  A call of [pullServer] that returns a count
    (a result without a reason) has set the stored watermark to the
    reading of the wall clock; every other call (no session, an error of
    the query, an exception anywhere) leaves the stored watermark as it
    was.  So the watermark does not decrease over a call whenever the
    clock's reading is not earlier than the stored watermark. *)
Theorem watermark_follows_the_clock (e : PullEnv) (w : World) :
  let w' := snd (pullServer e w) in
  match fst (pullServer e w) with
  | Ok r =>
      match pull_reason r with
      | None =>
          kv w' !! K_LASTPULLED_AT = Some (Plain (nowIso e)) ∧
          watermark w' = Plain (nowIso e)
      | Some _ =>
          kv w' !! K_LASTPULLED_AT = kv w !! K_LASTPULLED_AT ∧
          watermark w' = watermark w
      end
  | Throw =>
      kv w' !! K_LASTPULLED_AT = kv w !! K_LASTPULLED_AT ∧
      watermark w' = watermark w
  end ∧
  (notLater (watermark w) (Plain (nowIso e)) → notLater (watermark w) (watermark w')).
Proof.
  intros w'. subst w'. pose proof (pullServer_watermark e w) as Hcell.
  unfold watermark.
  destruct (fst (pullServer e w)) as [r|]; [destruct (pull_reason r)|];
    rewrite Hcell; (split; [done|]); intros Hclock;
    first [exact Hclock|apply notLater_refl].
Qed.

(** C5 as stated fails: with the watermark at the second of March and a
    clock that was set back to the first, a pull that succeeds stores the
    earlier time. *)
Lemma watermark_can_decrease :
  let e := pullTwoRows clockSetBack in
  fst (pullServer e pulledWorld) = Ok {| pulled := 2; pull_reason := None |} ∧
  watermark pulledWorld = Plain "2025-03-02T00:00:00.000Z" ∧
  watermark (snd (pullServer e pulledWorld)) = Plain "2025-03-01T00:00:00.000Z" ∧
  ¬ notLater (watermark pulledWorld) (watermark (snd (pullServer e pulledWorld))).
Proof.
  intros e. repeat split; try (vm_compute; reflexivity).
  intros Hle. vm_compute in Hle. discriminate.
Qed.

(** ** The whole pass *)

Lemma pullServer_enters e w :
  ∃ rest, trace (snd (pullServer e w)) = trace w ++ entered fn_pullServer :: rest.
Proof.
  unfold pullServer. run.
  destruct (pull_session e) as [[uid|]|]; cbn [snd trace];
    try (rewrite <- !app_assoc; by eexists).
  destruct (since_get_fault e); cbn [snd trace kv];
    try (rewrite <- !app_assoc; by eexists).
  destruct (select e) as [[data|]|]; cbn [snd trace kv];
    try (rewrite <- !app_assoc; by eexists).
  destruct (pull_hist_get_fault e); cbn [snd trace kv];
    try (rewrite <- !app_assoc; by eexists).
  destruct (kv w !! K_HISTORY) as [[s|hist]|];
    [destruct (String.eqb s ""), (pull_parses e s)| |]; cbn [snd trace kv];
    try (rewrite <- !app_assoc; by eexists).
  all: destruct (pull_hist_set_fault e); cbn [snd trace kv];
    try (rewrite <- !app_assoc; by eexists).
  all: destruct (mark_set_fault e); cbn [snd trace kv];
    rewrite <- !app_assoc; by eexists.
Qed.

(** [syncAll] raises exactly when the cleanup does. *)
Lemma syncAll_raises_iff e w :
  fst (syncAll e w) = Throw ↔
  fst (purgeLegacyArtifactsOnce (purge_env e) (log (entered fn_syncAll) w)) = Throw.
Proof.
  unfold syncAll. unfold bind at 1, enter at 1. unfold bind at 1.
  destruct (purgeLegacyArtifactsOnce _ _) as [[[]|] w1]; cbn [fst]; [|done].
  unfold try_catch, bind, ret.
  destruct (pushOutbox _ _) as [[p|] w2]; [|done].
  by destruct (pullServer _ _) as [[q|] w3].
Qed.

(** C1 fails on the code: the cleanup runs before the [try] of [syncAll],
    so a rejection of its storage calls leaves [syncAll] as an exception.
    It does so when the read of the flag rejects, and when the deletion of
    the legacy keys rejects. *)
Theorem syncAll_raises_when_cleanup_raises :
  fst (syncAll syncFlagUnreadable freshWorld) = Throw ∧
  fst (syncAll syncRemoveFails freshWorld) = Throw.
Proof. split; vm_compute; reflexivity. Qed.

(** C7, as the code has it.  After a cleanup that returned: when
    [pushOutbox] returns, whatever it reports, [pullServer] is entered
    next, on the state the push left, and [syncAll] returns both results
    (or the error result when the pull throws); when [pushOutbox] throws,
    [syncAll] returns the error result on the state the push left, without
    entering [pullServer]. *)
Theorem pull_follows_a_returning_push (e : SyncEnv) (w w1 : World) :
  purgeLegacyArtifactsOnce (purge_env e) (log (entered fn_syncAll) w) = (Ok tt, w1) →
  (∀ p w2,
     pushOutbox (push_env e) w1 = (Ok p, w2) →
     pullAttempted (snd (syncAll e w)) ∧
     syncAll e w =
       match pullServer (pull_env e) w2 with
       | (Ok q, w3) => (Ok {| push := p; pull := q; error := false |}, w3)
       | (Throw, w3) => (Ok swallowed, w3)
       end) ∧
  (∀ w2,
     pushOutbox (push_env e) w1 = (Throw, w2) →
     syncAll e w = (Ok swallowed, w2)).
Proof.
  intros Hpurge.
  assert (∀ r, syncAll e w = r ↔
    try_catch
      (let! push := pushOutbox (push_env e) in
       let! pull := pullServer (pull_env e) in
       ret {| push := push; pull := pull; error := false |})
      (ret swallowed) w1 = r) as Hsync.
  { intros r. unfold syncAll. unfold bind at 1, enter at 1. cbv beta iota.
    unfold bind at 1. by rewrite Hpurge. }
  split.
  - intros p w2 Hpush.
    assert (syncAll e w =
      match pullServer (pull_env e) w2 with
      | (Ok q, w3) => (Ok {| push := p; pull := q; error := false |}, w3)
      | (Throw, w3) => (Ok swallowed, w3)
      end) as Heq.
    { apply Hsync. unfold try_catch, bind, ret. rewrite Hpush.
      by destruct (pullServer (pull_env e) w2) as [[q|] w3]. }
    split; [|exact Heq]. rewrite Heq. unfold pullAttempted.
    destruct (pullServer_enters (pull_env e) w2) as [rest Htr].
    assert (trace (snd (pullServer (pull_env e) w2)) =
            trace (snd (match pullServer (pull_env e) w2 with
                        | (Ok q, w3) => (Ok {| push := p; pull := q; error := false |}, w3)
                        | (Throw, w3) => (Ok swallowed, w3)
                        end))) as <-.
    { by destruct (pullServer (pull_env e) w2) as [[q|] w3]. }
    rewrite Htr. apply elem_of_app. right. apply list_elem_of_here.
  - intros w2 Hpush. apply Hsync. unfold try_catch, bind, ret. by rewrite Hpush.
Qed.

(** C7 as stated fails: when the storage rejects the read of the Outbox,
    [pushOutbox] throws; the push has been entered and [pullServer] never
    is, although the pull would have gone through on the state the pass
    ended in. *)
Lemma pull_skipped_when_push_throws :
  let w' := snd (syncAll syncPushThrows freshWorld) in
  fst (syncAll syncPushThrows freshWorld) = Ok swallowed ∧
  pushAttempted w' ∧
  ¬ pullAttempted w' ∧
  fst (pullServer (pull_env syncPushThrows) w') =
    Ok {| pulled := 2; pull_reason := None |}.
Proof.
  intros w'. split; [vm_compute; reflexivity|]. split; [|split].
  - unfold pushAttempted. apply list_elem_of_In. vm_compute. tauto.
  - unfold pullAttempted. intros Hin. apply list_elem_of_In in Hin.
    vm_compute in Hin. repeat destruct Hin as [Hin|Hin]; discriminate || done.
  - vm_compute. reflexivity.
Qed.

(** ** The theorems at work on sample runs *)

Lemma purge_exactly_once_witness :
  let w1 := snd (purgeLegacyArtifactsOnce storageFine freshWorld) in
  fst (purgeLegacyArtifactsOnce storageFine freshWorld) = Ok tt ∧
  kv (purgeAgain [storageFine; flagUnreadable] w1) = kv w1 ∧
  flagSet (purgeAgain [storageFine; flagUnreadable] w1).
Proof.
  intros w1. split; [vm_compute; reflexivity|].
  assert (purgeLegacyArtifactsOnce storageFine freshWorld = (Ok tt, w1)) as Hfirst
    by (vm_compute; reflexivity).
  destruct (purge_exactly_once storageFine freshWorld w1 Hfirst
              [storageFine; flagUnreadable]) as (Hkv & Hflag & _).
  split; [exact Hkv|exact Hflag].
Defined.

Lemma push_counters_conserved_witness :
  let r := {| pushed := 1; failed := Some 1%nat; push_reason := None |} in
  fst (pushOutbox pushFirstFails queuedWorld) = Ok r ∧
  (pushed r + default 0%nat (failed r))%nat = length (outboxOf queuedWorld).
Proof.
  intros r. split; [vm_compute; reflexivity|].
  assert (pushOutbox pushFirstFails queuedWorld =
          (Ok r, snd (pushOutbox pushFirstFails queuedWorld))) as Hrun
    by (vm_compute; reflexivity).
  exact (proj1 (push_counters_conserved pushFirstFails queuedWorld _ "u1" r
                  eq_refl Hrun)).
Defined.

Lemma push_keeps_exactly_the_failed_witness :
  storageHolds pushFirstFails (length (outboxOf queuedWorld)) ∧
  arraysStored queuedWorld ∧
  ∃ r w',
    pushOutbox pushFirstFails queuedWorld = (Ok r, w') ∧
    outboxOf w' = [scanA] ∧
    sublist [scanA] [scanB; scanA] ∧
    pushed r = 1%nat ∧
    default 0%nat (failed r) = 1%nat.
Proof.
  assert (storageHolds pushFirstFails (length (outboxOf queuedWorld))) as Hst.
  { split; [reflexivity|]. split; [reflexivity|].
    intros [|i] _; split; reflexivity. }
  assert (arraysStored queuedWorld) as Harr.
  { split; vm_compute; exact I. }
  split; [exact Hst|]. split; [exact Harr|].
  destruct (push_keeps_exactly_the_failed pushFirstFails queuedWorld "u1" eq_refl
              Hst Harr)
    as (_ & r & w' & Hrun & Hout & Hsub & _ & Hp & Hf & _).
  exists r, w'. repeat split; assumption.
Defined.


Lemma push_marks_only_confirmed_witness :
  serverId <$> historyOf (snd (pushOutbox pushFine queuedWorld)) =
  serverId <$> historyOf queuedWorld.
Proof.
  exact (proj1 (proj2 (proj2 (push_marks_only_confirmed pushFine queuedWorld)))).
Defined.

Lemma history_serverIds_stay_unique_witness :
  let now := "2025-03-03T00:00:00.000Z" in
  rowsDistinct (pullTwoRows now) ∧
  serverIdsUnique (historyOf queuedWorld) ∧
  serverIdsUnique
    (historyOf (snd (pullServer (pullTwoRows now)
                       (snd (pullServer (pullTwoRows now)
                               (snd (pushOutbox pushFine queuedWorld))))))).
Proof.
  intros now.
  assert (rowsDistinct (pullTwoRows now)) as Hrows.
  { unfold rowsDistinct. cbn. apply (bool_decide_unpack _). vm_compute. exact I. }
  assert (serverIdsUnique (historyOf queuedWorld)) as Hinv.
  { unfold serverIdsUnique. vm_compute. constructor. }
  split; [exact Hrows|]. split; [exact Hinv|].
  destruct history_serverIds_stay_unique as (_ & Hpush & _ & Htwice).
  apply (Htwice (pullTwoRows now) (pullTwoRows now)); [reflexivity|exact Hrows|].
  apply Hpush. exact Hinv.
Defined.

Lemma watermark_follows_the_clock_witness :
  let e := pullTwoRows "2025-03-03T00:00:00.000Z" in
  notLater (watermark pulledWorld) (Plain (nowIso e)) ∧
  notLater (watermark pulledWorld) (watermark (snd (pullServer e pulledWorld))) ∧
  watermark (snd (pullServer e pulledWorld)) = Plain "2025-03-03T00:00:00.000Z" ∧
  watermark (snd (pullServer pullFails pulledWorld)) = watermark pulledWorld.
Proof.
  intros e.
  assert (notLater (watermark pulledWorld) (Plain (nowIso e))) as Hclock
    by (vm_compute; reflexivity).
  split; [exact Hclock|].
  split; [exact (proj2 (watermark_follows_the_clock e pulledWorld) Hclock)|].
  split.
  - exact (proj2 (proj1 (watermark_follows_the_clock e pulledWorld))).
  - exact (proj2 (proj1 (watermark_follows_the_clock pullFails pulledWorld))).
Defined.

Lemma pull_error_changes_nothing_witness :
  ∃ w',
    pullServer pullFails pulledWorld =
      (Ok {| pulled := 0; pull_reason := Some pull_error |}, w') ∧
    kv w' = kv pulledWorld.
Proof.
  destruct (pull_error_changes_nothing pullFails pulledWorld "u1"
              eq_refl eq_refl eq_refl) as (w' & Hrun & Hkv & _).
  exists w'. split; [exact Hrun|exact Hkv].
Defined.

Lemma pull_follows_a_returning_push_witness :
  let p := {| pushed := 1; failed := Some 1%nat; push_reason := None |} in
  let w1 := snd (purgeLegacyArtifactsOnce storageFine
                   (log (entered fn_syncAll) queuedWorld)) in
  fst (pushOutbox pushFirstFails w1) = Ok p ∧
  pullAttempted (snd (syncAll syncPushFails queuedWorld)).
Proof.
  intros p w1. split; [vm_compute; reflexivity|].
  assert (purgeLegacyArtifactsOnce (purge_env syncPushFails)
            (log (entered fn_syncAll) queuedWorld) = (Ok tt, w1)) as Hpurge
    by (vm_compute; reflexivity).
  assert (pushOutbox (push_env syncPushFails) w1 =
          (Ok p, snd (pushOutbox pushFirstFails w1))) as Hpush
    by (vm_compute; reflexivity).
  exact (proj1 (proj1 (pull_follows_a_returning_push syncPushFails queuedWorld w1
                         Hpurge) p _ Hpush)).
Defined.

(** * Further properties *)

(** ** The event bus *)

Lemma setAdd_NoDup `{EqDecision H} (h : H) s : NoDup s → NoDup (bus.setAdd h s).
Proof.
  intros Hs. unfold bus.setAdd. destruct (decide (h ∈ s)) as [Hin|Hout]; [done|].
  apply NoDup_app. repeat split; [done| |apply NoDup_singleton].
  intros x Hx Hx'. apply list_elem_of_singleton in Hx' as ->. done.
Qed.

Lemma setAdd_elem `{EqDecision H} (h : H) s : h ∈ bus.setAdd h s.
Proof.
  unfold bus.setAdd. destruct (decide (h ∈ s)) as [Hin|Hout]; [done|].
  apply elem_of_app. right. apply list_elem_of_here.
Qed.

Lemma callsOf_emit `{EqDecision H} {P} (h : H) (p : P) s :
  NoDup s → h ∈ s →
  callsOf h ((λ fn, (fn, p)) <$> s) = 1%nat.
Proof.
  unfold callsOf. induction s as [|x s IH]; intros Hnd Hin; [by inv Hin|].
  apply NoDup_cons in Hnd as [Hx Hnd]. rewrite fmap_cons, filter_cons. cbn [fst].
  destruct (decide (x = h)) as [->|Hne].
  - cbn [length]. f_equal.
    clear IH Hin Hnd. induction s as [|y s IH]; [done|].
    rewrite fmap_cons, filter_cons. cbn [fst].
    rewrite decide_False; [|intros ->; apply Hx, list_elem_of_here].
    apply IH. intros Hh. apply Hx. by apply list_elem_of_further.
  - apply IH; [done|]. inv Hin; done.
Qed.

Lemma setDelete_fmap `{EqDecision H} {P} (h : H) (p : P) s :
  (λ fn, (fn, p)) <$> bus.setDelete h s =
  filter (λ c, fst c ≠ h) ((λ fn, (fn, p)) <$> s).
Proof.
  unfold bus.setDelete. induction s as [|x s IH]; [done|].
  rewrite fmap_cons, !filter_cons. cbn [fst].
  destruct (decide (x ≠ h)); [rewrite fmap_cons|]; by rewrite IH.
Qed.

(** What [listeners[event]] gives, by cases. *)
Lemma slot_cases {H} (event : string) (listeners : gmap string (list H)) :
  (shadowsNothing event listeners ∧ bus.slot event listeners = bus.inheritedMember) ∨
  (¬ shadowsNothing event listeners ∧
   ((∃ s, listeners !! event = Some s ∧ bus.slot event listeners = bus.ownSet s) ∨
    (listeners !! event = None ∧ bus.slot event listeners = bus.undefined))).
Proof.
  unfold shadowsNothing, bus.slot. destruct (listeners !! event) as [s|] eqn:Hs.
  - right. split; [by intros [_ ?]|]. left. by exists s.
  - destruct (bool_decide_reflect (event ∈ inheritedNames)) as [Hin|Hout].
    + by left.
    + right. split; [by intros [? _]|]. by right.
Qed.

Lemma slot_insert_ne {H} (event other : string) (s : list H)
    (listeners : gmap string (list H)) :
  other ≠ event → bus.slot other (<[event := s]> listeners) = bus.slot other listeners.
Proof. intros Hne. unfold bus.slot. by rewrite lookup_insert_ne. Qed.

Lemma slot_insert_eq {H} (event : string) (s : list H)
    (listeners : gmap string (list H)) :
  bus.slot event (<[event := s]> listeners) = bus.ownSet s.
Proof. unfold bus.slot. by rewrite lookup_insert_eq. Qed.

(** X1.  For an event whose name is not one every object inherits (or
    under which handlers are stored), subscribing returns and makes the
    handler receive every event of that name exactly once, also when it
    was subscribed already (the handlers of an event form a set): the
    calls of an [emit] are those made before, the subscribers in their
    order, followed by the new handler if it is new.  Events of another
    name are delivered as before.  For a name every object inherits, such
    as ['constructor'] or ['toString'], under which nothing is stored,
    [on] and [emit] throw a [TypeError]. *)
Theorem bus_on_delivers_once `{EqDecision H} {P} (event : string) (h : H)
    (listeners : gmap string (list H)) (p : P) :
  busWf listeners →
  (shadowsNothing event listeners →
   bus.on event h listeners = None ∧ bus.emit event p listeners = None) ∧
  (¬ shadowsNothing event listeners →
   let before := (λ fn, (fn, p)) <$> subscribers event listeners in
   let new := if decide (h ∈ subscribers event listeners) then [] else [(h, p)] in
   ∃ after,
     bus.on event h listeners = Some after ∧
     busWf after ∧
     is_Some (after !! event) ∧
     bus.emit event p listeners = Some before ∧
     bus.emit event p after = Some (before ++ new) ∧
     callsOf h (before ++ new) = 1%nat ∧
     ∀ other, other ≠ event →
              bus.emit other p after = bus.emit other p listeners).
Proof.
  intros Hwf. unfold bus.on, bus.emit, subscribers.
  assert (NoDup (default [] (listeners !! event))) as Hnd.
  { destruct (listeners !! event) as [s|] eqn:Hs; [by eapply Hwf|constructor]. }
  destruct (slot_cases event listeners)
    as [[Hsh ->]|[Hns [(s & Hs & ->)|[Hs ->]]]].
  - split; [done|]. intros Hn. by destruct Hn.
  - split; [intros Hn; by destruct Hns|]. intros _. cbv zeta.
    rewrite Hs in Hnd |- *. cbn [from_option id] in Hnd |- *.
    eexists. split; [reflexivity|]. rewrite slot_insert_eq.
    split; [|split; [by rewrite lookup_insert_eq|split; [done|split; [|split]]]].
    + intros ev s'. destruct (decide (event = ev)) as [<-|Hne].
      * rewrite lookup_insert_eq. intros [= <-]. by apply setAdd_NoDup.
      * rewrite lookup_insert_ne by done. apply Hwf.
    + unfold bus.setAdd. destruct (decide _); [by rewrite app_nil_r|].
      by rewrite fmap_app.
    + replace (((λ fn, (fn, p)) <$> s) ++
               (if decide (h ∈ s) then [] else [(h, p)]))
        with ((λ fn, (fn, p)) <$> bus.setAdd h s).
      * apply callsOf_emit; [by apply setAdd_NoDup|apply setAdd_elem].
      * unfold bus.setAdd. destruct (decide _); [by rewrite app_nil_r|].
        by rewrite fmap_app.
    + intros other Hne. by rewrite slot_insert_ne.
  - split; [intros Hn; by destruct Hns|]. intros _. cbv zeta.
    rewrite Hs. cbn [from_option id fmap list_fmap app].
    rewrite decide_False by apply not_elem_of_nil.
    eexists. split; [reflexivity|]. rewrite slot_insert_eq.
    split; [|split; [by rewrite lookup_insert_eq|split; [done|split; [done|split]]]].
    + intros ev s'. destruct (decide (event = ev)) as [<-|Hne].
      * rewrite lookup_insert_eq. intros [= <-]. apply NoDup_singleton.
      * rewrite lookup_insert_ne by done. apply Hwf.
    + unfold callsOf. rewrite filter_cons, decide_True by done. done.
    + intros other Hne. by rewrite slot_insert_ne.
Qed.

(** X2.  After the function returned by [on] has run, the handler is no
    longer called for that event, whoever had subscribed it; the other
    handlers are called as before and in the same order, other events are
    delivered as before, and running it again changes nothing.  The
    function returns once handlers have been stored under the name of the
    event, which is so from the moment [on] has returned for it, and for
    every name that is not one every object inherits. *)
Theorem bus_off_silences `{EqDecision H} {P} (event : string) (h : H)
    (listeners : gmap string (list H)) (p : P) :
  (is_Some (bus.off event h listeners) ↔ ¬ shadowsNothing event listeners) ∧
  (∀ h' before, bus.on event h' before = Some listeners →
                is_Some (bus.off event h listeners)) ∧
  ∀ after, bus.off event h listeners = Some after →
    (∃ calls, bus.emit event p listeners = Some calls ∧
              bus.emit event p after = Some (filter (λ c, fst c ≠ h) calls) ∧
              (h, p) ∉ filter (λ c, fst c ≠ h) calls) ∧
    (∀ other, other ≠ event →
              bus.emit other p after = bus.emit other p listeners) ∧
    bus.off event h after = Some after ∧
    (busWf listeners → busWf after).
Proof.
  assert (∀ s : list H, bus.setDelete h (bus.setDelete h s) = bus.setDelete h s)
    as Hidem.
  { intros s. unfold bus.setDelete. induction s as [|x s IH]; [done|].
    rewrite filter_cons. destruct (decide (x ≠ h)) as [Hx|Hx]; [|done].
    rewrite filter_cons, decide_True by done. by rewrite IH. }
  split.
  { unfold bus.off.
    destruct (slot_cases event listeners)
      as [[Hsh ->]|[Hns [(s & Hs & ->)|[Hs ->]]]]; split; done. }
  split.
  { intros h' before. unfold bus.on, bus.off.
    destruct (bus.slot event before); [|discriminate|];
      intros [= <-]; by rewrite slot_insert_eq. }
  intros after. unfold bus.off, bus.emit.
  destruct (slot_cases event listeners)
    as [[Hsh ->]|[Hns [(s & Hs & ->)|[Hs ->]]]]; [done| |]; intros [= <-].
  - rewrite slot_insert_eq. split; [|split; [|split]].
    + eexists. split; [reflexivity|]. rewrite setDelete_fmap. split; [done|].
      intros Hin. apply list_elem_of_filter in Hin as [Hne _]. by apply Hne.
    + intros other Hne. by rewrite slot_insert_ne.
    + rewrite insert_insert_eq. by rewrite Hidem.
    + intros Hwf ev s'. destruct (decide (event = ev)) as [<-|Hne].
      * rewrite lookup_insert_eq. intros [= <-]. apply NoDup_filter. by eapply Hwf.
      * rewrite lookup_insert_ne by done. apply Hwf.
  - assert (bus.slot event listeners = bus.undefined) as Hslot.
    { unfold bus.slot. rewrite Hs.
      destruct (bool_decide_reflect (event ∈ inheritedNames)) as [Hin|Hout]; [|done].
      by destruct Hns. }
    rewrite Hslot. split; [|by repeat split].
    exists []. split; [done|]. split; [done|]. apply not_elem_of_nil.
Qed.

(** X3.  Subscribing a handler that was not subscribed and unsubscribing
    it again leaves every delivery as it was. *)
Theorem bus_on_off_round_trip `{EqDecision H} {P} (event : string) (h : H)
    (listeners : gmap string (list H)) :
  h ∉ subscribers event listeners →
  ∀ subscribed,
    bus.on event h listeners = Some subscribed →
    ∃ after,
      bus.off event h subscribed = Some after ∧
      ∀ (any : string) (p : P),
        bus.emit any p after = bus.emit any p listeners.
Proof.
  unfold subscribers, bus.off, bus.on, bus.emit. intros Hfresh subscribed.
  assert (∀ s : list H, h ∉ s → bus.setDelete h (bus.setAdd h s) = s) as Hback.
  { intros s Hs. unfold bus.setAdd, bus.setDelete. rewrite decide_False by done.
    rewrite filter_app, filter_cons, decide_False by (intros Hn; by apply Hn).
    rewrite filter_nil, app_nil_r.
    induction s as [|x s IH]; [done|].
    rewrite filter_cons, decide_True.
    - f_equal. apply IH. intros Hin. apply Hs. by apply list_elem_of_further.
    - intros ->. apply Hs, list_elem_of_here. }
  destruct (slot_cases event listeners)
    as [[Hsh ->]|[Hns [(s & Hs & Hslot)|[Hs Hslot]]]]; [done| |];
    rewrite Hslot; intros [= <-]; rewrite slot_insert_eq;
    (eexists; split; [reflexivity|]); intros any p; rewrite insert_insert_eq;
    (destruct (decide (any = event)) as [->|Hne]; [|by rewrite slot_insert_ne]);
    rewrite slot_insert_eq, Hslot.
  - rewrite Hs in Hfresh. cbn [from_option id] in Hfresh. by rewrite Hback.
  - by rewrite Hback by apply not_elem_of_nil.
Qed.

(** ** The history screen *)

Lemma hasId_elem i (prev : list HistoryScreen.Row) :
  HistoryScreen.hasId i prev = true ↔ i ∈ HistoryScreen.id <$> prev.
Proof.
  unfold HistoryScreen.hasId. rewrite existsb_exists, list_elem_of_fmap. split.
  - intros (x & Hx & Heq). exists x. apply Z.eqb_eq in Heq.
    split; [done|by apply list_elem_of_In].
  - intros (x & -> & Hx). exists x. split; [by apply list_elem_of_In|apply Z.eqb_refl].
Qed.

Lemma hasId_not_elem i (prev : list HistoryScreen.Row) :
  HistoryScreen.hasId i prev = false ↔ i ∉ HistoryScreen.id <$> prev.
Proof.
  rewrite <- hasId_elem. by destruct (HistoryScreen.hasId i prev).
Qed.

(** X4.  Showing an inserted row is idempotent: a row whose id is on the
    screen is not added again, so the same insert arriving twice (by the
    bus and by the realtime channel) shows once.  Afterwards the id is on
    the screen, ids that were distinct stay distinct, and a list that held
    at most [PAGE] rows still does. *)
Theorem history_insert_is_idempotent (r : HistoryScreen.Row)
    (prev : list HistoryScreen.Row) :
  HistoryScreen.onInsert r (HistoryScreen.onInsert r prev) =
    HistoryScreen.onInsert r prev ∧
  HistoryScreen.hasId (HistoryScreen.id r) (HistoryScreen.onInsert r prev) = true ∧
  (NoDup (HistoryScreen.id <$> prev) →
   NoDup (HistoryScreen.id <$> HistoryScreen.onInsert r prev)) ∧
  (length prev ≤ HistoryScreen.PAGE →
   length (HistoryScreen.onInsert r prev) ≤ HistoryScreen.PAGE)%nat.
Proof.
  assert (HistoryScreen.hasId (HistoryScreen.id r) (HistoryScreen.onInsert r prev)
          = true) as Hin.
  { unfold HistoryScreen.onInsert.
    destruct (HistoryScreen.hasId (HistoryScreen.id r) prev) eqn:Hhas; [done|].
    cbn. by rewrite Z.eqb_refl. }
  split; [|split; [done|split]].
  - unfold HistoryScreen.onInsert at 1. by rewrite Hin.
  - intros Hnd. unfold HistoryScreen.onInsert.
    destruct (HistoryScreen.hasId (HistoryScreen.id r) prev) eqn:Hhas; [done|].
    apply hasId_not_elem in Hhas.
    apply (sublist_NoDup _ (HistoryScreen.id <$> r :: prev)).
    + rewrite fmap_cons. by apply NoDup_cons.
    + apply fmap_sublist, sublist_take.
  - intros Hlen. unfold HistoryScreen.onInsert.
    destruct (HistoryScreen.hasId (HistoryScreen.id r) prev); [done|].
    rewrite length_take. lia.
Qed.

(** X5.  Removing a row takes every row of that id off the screen and
    keeps the others in their order.  Removing a row that an insert has
    just shown gives back the list before the insert, cut to [PAGE - 1]
    rows: on a full page the row the insert pushed out does not return. *)
Theorem history_delete_after_insert (r : HistoryScreen.Row)
    (prev : list HistoryScreen.Row) (i : Z) :
  HistoryScreen.hasId i (HistoryScreen.onDelete i prev) = false ∧
  sublist (HistoryScreen.onDelete i prev) prev ∧
  (HistoryScreen.hasId i prev = false → HistoryScreen.onDelete i prev = prev) ∧
  (HistoryScreen.hasId (HistoryScreen.id r) prev = false →
   HistoryScreen.onDelete (HistoryScreen.id r) (HistoryScreen.onInsert r prev) =
     take (HistoryScreen.PAGE - 1) prev).
Proof.
  assert (∀ j (l : list HistoryScreen.Row),
            HistoryScreen.hasId j l = false → HistoryScreen.onDelete j l = l) as Hid.
  { intros j l. unfold HistoryScreen.onDelete, HistoryScreen.hasId.
    induction l as [|x l IH]; [done|]. cbn [existsb]. intros Hno.
    apply orb_false_iff in Hno as [Hx Hl]. apply Z.eqb_neq in Hx.
    rewrite filter_cons, decide_True by done. by rewrite IH. }
  split; [|split; [|split]].
  - apply hasId_not_elem. intros Hin. apply list_elem_of_fmap in Hin as (x & Hx & Hin).
    apply list_elem_of_filter in Hin as [Hne _]. by apply Hne.
  - apply sublist_filter.
  - apply Hid.
  - intros Hno. unfold HistoryScreen.onInsert. rewrite Hno.
    unfold HistoryScreen.PAGE. cbn [take Nat.sub].
    unfold HistoryScreen.onDelete at 1.
    rewrite filter_cons, decide_False by (intros Hn; by apply Hn).
    apply Hid. apply hasId_not_elem. apply hasId_not_elem in Hno.
    intros Hin. apply Hno.
    eapply elem_of_sublist; [exact Hin|]. apply fmap_sublist, sublist_take.
Qed.

(** X6.  A realtime update replaces the rows of its id and nothing else:
    the ids on the screen and their order are the same, a row of another
    id is kept as it was, every row of that id is now the new row, and an
    update for an id that is not on the screen changes nothing. *)
Theorem history_update_keeps_ids (r : HistoryScreen.Row)
    (prev : list HistoryScreen.Row) :
  HistoryScreen.id <$> HistoryScreen.onUpdate r prev = HistoryScreen.id <$> prev ∧
  (∀ n x, prev !! n = Some x →
          HistoryScreen.onUpdate r prev !! n =
            Some (if (HistoryScreen.id x =? HistoryScreen.id r)%Z then r else x)) ∧
  (HistoryScreen.hasId (HistoryScreen.id r) prev = false →
   HistoryScreen.onUpdate r prev = prev).
Proof.
  unfold HistoryScreen.onUpdate. split; [|split].
  - rewrite <- list_fmap_compose. apply list_fmap_ext. intros n x _. cbn.
    destruct (Z.eqb_spec (HistoryScreen.id x) (HistoryScreen.id r)); congruence.
  - intros n x Hx. by rewrite list_lookup_fmap, Hx.
  - intros Hno. apply hasId_not_elem in Hno.
    rewrite <- (list_fmap_id prev) at 2. apply list_fmap_ext. intros n x Hx.
    destruct (Z.eqb_spec (HistoryScreen.id x) (HistoryScreen.id r)) as [Heq|]; [|done].
    destruct Hno. rewrite <- Heq. apply list_elem_of_fmap_2.
    by eapply list_elem_of_lookup_2.
Qed.

(** ** The listeners *)

(** X7.  The callbacks [attachSyncListeners] registers never raise,
    whatever the pass does (also when the cleanup throws and [syncAll]
    itself raises).  They start a pass only when the network is connected
    and reachable, respectively when the app becomes active, and do nothing
    at all otherwise; when they start one, its effect is that of
    [syncAll]. *)
Theorem listeners_never_raise (e : SyncEnv) (state : NetInfoState) (s : string)
    (w : World) :
  fst (onNetInfo e state w) = Ok tt ∧
  fst (onAppState e s w) = Ok tt ∧
  (truthyBool (isConnected state) && truthyBool (isInternetReachable state) = false →
   onNetInfo e state w = (Ok tt, w)) ∧
  (s ≠ "active" → onAppState e s w = (Ok tt, w)) ∧
  (truthyBool (isConnected state) && truthyBool (isInternetReachable state) = true →
   snd (onNetInfo e state w) = snd (syncAll e w)) ∧
  (s = "active" → snd (onAppState e s w) = snd (syncAll e w)).
Proof.
  assert (fst (syncQuietly e w) = Ok tt ∧ snd (syncQuietly e w) = snd (syncAll e w))
    as [Hq1 Hq2].
  { unfold syncQuietly, try_catch, bind, ret.
    by destruct (syncAll e w) as [[r|] w1]. }
  unfold onNetInfo, onAppState.
  destruct (truthyBool (isConnected state) && truthyBool (isInternetReachable state));
    destruct (String.eqb_spec s "active"); repeat split; done.
Qed.

(** ** More on the cleanup *)

Lemma lookup_foldr_delete (m : gmap string Text) ks k :
  foldr delete m ks !! k = if decide (k ∈ ks) then None else m !! k.
Proof.
  induction ks as [|k0 ks IH]; cbn [foldr].
  - by rewrite decide_False by apply not_elem_of_nil.
  - destruct (decide (k0 = k)) as [->|Hne].
    + rewrite lookup_delete_eq. rewrite decide_True; [done|apply list_elem_of_here].
    + rewrite lookup_delete_ne by done. rewrite IH.
      destruct (decide (k ∈ ks)) as [Hin|Hout].
      * rewrite decide_True; [done|by apply list_elem_of_further].
      * rewrite decide_False; [done|]. intros Hin. inv Hin; done.
Qed.

(** The storage after a call of the cleanup: as it was, without the
    legacy keys, or without them and with the flag. *)
Lemma purge_storage e w :
  kv (snd (purgeLegacyArtifactsOnce e w)) = kv w ∨
  (kv (snd (purgeLegacyArtifactsOnce e w)) = foldr delete (kv w) LEGACY_KEYS ∧
   fst (purgeLegacyArtifactsOnce e w) = Throw) ∨
  (kv (snd (purgeLegacyArtifactsOnce e w)) =
     <[K_LEGACY_CLEANED := Plain "1"]> (foldr delete (kv w) LEGACY_KEYS) ∧
   fst (purgeLegacyArtifactsOnce e w) = Ok tt ∧
   ¬ flagSet w).
Proof.
  unfold purgeLegacyArtifactsOnce, flagSet. run.
  destruct (flag_get_fault e); cbn [snd kv]; [by left|].
  destruct (truthy (kv w !! K_LEGACY_CLEANED)) eqn:Hflag; cbn [snd kv]; [by left|].
  destruct (remove_fault e); cbn [snd kv]; [by left|].
  destruct (flag_set_fault e); cbn [fst snd kv]; [right; by left|].
  right. right. repeat split; congruence.
Qed.

(** X8.  Whatever its outcome, the cleanup leaves every key alone that is
    neither a legacy key nor its flag: History, the Outbox and the
    watermark among them.  When it returns on a storage whose flag was not
    set, the four legacy keys are gone and the flag holds ['1']. *)
Theorem purge_touches_only_legacy_keys (e : PurgeEnv) (w : World) :
  (∀ k, k ∉ LEGACY_KEYS → k ≠ K_LEGACY_CLEANED →
        kv (snd (purgeLegacyArtifactsOnce e w)) !! k = kv w !! k) ∧
  (historyOf (snd (purgeLegacyArtifactsOnce e w)) = historyOf w ∧
   outboxOf (snd (purgeLegacyArtifactsOnce e w)) = outboxOf w ∧
   watermark (snd (purgeLegacyArtifactsOnce e w)) = watermark w) ∧
  (¬ flagSet w →
   fst (purgeLegacyArtifactsOnce e w) = Ok tt →
   (∀ k, k ∈ LEGACY_KEYS → kv (snd (purgeLegacyArtifactsOnce e w)) !! k = None) ∧
   kv (snd (purgeLegacyArtifactsOnce e w)) !! K_LEGACY_CLEANED = Some (Plain "1")).
Proof.
  assert (∀ k, k ∉ LEGACY_KEYS → k ≠ K_LEGACY_CLEANED →
               kv (snd (purgeLegacyArtifactsOnce e w)) !! k = kv w !! k) as Hframe.
  { intros k Hk Hflag.
    destruct (purge_storage e w) as [->|[[-> _]|[-> _]]]; [done| |].
    - by rewrite lookup_foldr_delete, decide_False.
    - rewrite lookup_insert_ne by done. by rewrite lookup_foldr_delete, decide_False.
  }
  assert (K_LEGACY_CLEANED ∉ LEGACY_KEYS) as Hflagkey
    by (apply (bool_decide_unpack _); vm_compute; exact I).
  split; [exact Hframe|split].
  - unfold historyOf, outboxOf, scansAt, watermark.
    rewrite !Hframe; [done|..]; try discriminate;
      apply (bool_decide_unpack _); vm_compute; exact I.
  - intros Hunset Hok. revert Hok. unfold purgeLegacyArtifactsOnce, flagSet in *. run.
    destruct (flag_get_fault e); [discriminate|].
    destruct (truthy (kv w !! K_LEGACY_CLEANED)) eqn:Hflag; [by destruct Hunset|].
    destruct (remove_fault e); [discriminate|].
    destruct (flag_set_fault e); [discriminate|]. cbn [fst snd kv]. intros _.
    split; [|by rewrite lookup_insert_eq].
    intros k Hk. rewrite lookup_insert_ne by (by intros <-).
    by rewrite lookup_foldr_delete, decide_True.
Qed.

(** X9.  The flag is written only by a call that returns: a call that
    throws leaves the flag as it was, so the next call starts over.  And a
    call on a storage that answers always returns, with the flag set. *)
Theorem purge_sets_flag_only_on_success (e : PurgeEnv) (w : World) :
  (fst (purgeLegacyArtifactsOnce e w) = Throw →
   kv (snd (purgeLegacyArtifactsOnce e w)) !! K_LEGACY_CLEANED =
     kv w !! K_LEGACY_CLEANED) ∧
  (flag_get_fault e = false → remove_fault e = false → flag_set_fault e = false →
   fst (purgeLegacyArtifactsOnce e w) = Ok tt ∧
   flagSet (snd (purgeLegacyArtifactsOnce e w))).
Proof.
  split.
  - intros Hthrow.
    destruct (purge_storage e w) as [->|[[-> _]|[_ [Hok _]]]]; [done| |congruence].
    rewrite lookup_foldr_delete, decide_False; [done|].
    apply (bool_decide_unpack _). vm_compute. exact I.
  - intros Hg Hr Hs.
    destruct (purgeLegacyArtifactsOnce e w) as [[[]|] w1] eqn:Hrun.
    + split; [done|]. by eapply purge_ok_sets_flag.
    + exfalso. revert Hrun. unfold purgeLegacyArtifactsOnce. run.
      rewrite Hg, Hr, Hs. by destruct (truthy _).
Qed.

(** X10.  The scan screen's start-up cleanup and the cleanup of the sync
    module do the same to the storage and end the same way, whatever the
    storage answers; so once either has returned, the other only reads the
    flag. *)
Theorem scan_screen_cleanup_agrees (e : PurgeEnv) (w : World) :
  fst (scanScreenCleanup e w) = fst (purgeLegacyArtifactsOnce e w) ∧
  kv (snd (scanScreenCleanup e w)) = kv (snd (purgeLegacyArtifactsOnce e w)) ∧
  (fst (scanScreenCleanup e w) = Ok tt →
   ∀ e', purgeLegacyArtifactsOnce e' (snd (scanScreenCleanup e w)) =
           (if flag_get_fault e' then Throw else Ok tt,
            readsFlagOnly (snd (scanScreenCleanup e w)))).
Proof.
  assert (fst (scanScreenCleanup e w) = fst (purgeLegacyArtifactsOnce e w) ∧
          kv (snd (scanScreenCleanup e w)) = kv (snd (purgeLegacyArtifactsOnce e w)))
    as [Hres Hkv].
  { unfold scanScreenCleanup, purgeLegacySyncArtifacts, purgeLegacyArtifactsOnce. run.
    change "SYNC_CLEANED_v1" with K_LEGACY_CLEANED.
    change ["PENDING_QUEUE"; "SYNC_LOCK"; "SYNC_IN_PROGRESS"; "SYNC_QUARANTINE_LAST"]
      with LEGACY_KEYS.
    destruct (flag_get_fault e); [done|]. cbn [kv].
    destruct (truthy (kv w !! K_LEGACY_CLEANED)); [done|]. cbn [negb].
    destruct (remove_fault e); [done|]. by destruct (flag_set_fault e). }
  split; [exact Hres|split; [exact Hkv|]].
  intros Hok e'. apply purge_when_cleaned. unfold flagSet. rewrite Hkv.
  rewrite Hres in Hok.
  destruct (purgeLegacyArtifactsOnce e w) as [[[]|] w1] eqn:Hrun; [|done].
  by eapply purge_ok_sets_flag.
Qed.

(** X11.  [purgeSyncArtifactsOnce] of the retired queue never raises and,
    despite its name, deletes on every call: it reads and writes no flag,
    so it neither stops the cleanup of the sync module from running nor is
    stopped by it.  It removes the four legacy keys when the storage
    accepts the deletion and touches no other key. *)
Theorem retired_purge_never_raises (fault : bool) (w : World) :
  fst (offlineQueue.purgeSyncArtifactsOnce fault w) = Ok tt ∧
  AsyncStorage_multiRemove offlineQueue.KEYS ∈
    drop (length (trace w)) (trace (snd (offlineQueue.purgeSyncArtifactsOnce fault w))) ∧
  (∀ k, k ∉ LEGACY_KEYS →
        kv (snd (offlineQueue.purgeSyncArtifactsOnce fault w)) !! k = kv w !! k) ∧
  (flagSet (snd (offlineQueue.purgeSyncArtifactsOnce fault w)) ↔ flagSet w) ∧
  (fault = false →
   ∀ k, k ∈ LEGACY_KEYS →
        kv (snd (offlineQueue.purgeSyncArtifactsOnce fault w)) !! k = None).
Proof.
  unfold offlineQueue.purgeSyncArtifactsOnce, flagSet. run.
  change offlineQueue.KEYS with LEGACY_KEYS.
  destruct fault; cbn [fst snd kv trace].
  - repeat split; try done.
    rewrite drop_app_length. apply list_elem_of_here.
  - repeat split; try done.
    + rewrite <- app_assoc, drop_app_length. apply list_elem_of_here.
    + intros k Hk. by rewrite lookup_foldr_delete, decide_False.
    + rewrite lookup_foldr_delete, decide_False; [done|].
      apply (bool_decide_unpack _). vm_compute. exact I.
    + rewrite lookup_foldr_delete, decide_False; [done|].
      apply (bool_decide_unpack _). vm_compute. exact I.
    + intros _ k Hk. by rewrite lookup_foldr_delete, decide_True.
Qed.

(** ** More on the push *)

(** What the loop keeps, whatever the storage does: every record the
    remote store failed, and only records of the Outbox, in their order. *)
Lemma pushLoop_kept uid parses it items : ∀ i st w,
  ∃ st' w' fs,
    pushLoop uid parses it i items st w = (Ok st', w') ∧
    snd st' = snd st ++ fs ∧
    sublist (failing it i items) fs ∧
    sublist fs items.
Proof.
  induction items as [|item rest IH]; intros i st w; cbn [pushLoop failing].
  - exists st, w, []. by rewrite app_nil_r.
  - destruct (pushBody_spec uid parses (it i) item st w) as (w1 & Hbody & _).
    unfold bind at 1. rewrite Hbody.
    edestruct (IH (S i)) as (st' & w' & fs & Hloop & Hfs & Hlow & Hup).
    rewrite Hloop. unfold iterFails in Hfs.
    destruct (remoteFailure (it i) item); cbn [orb fst snd app] in *.
    + exists st', w', (item :: fs). rewrite <- app_assoc in Hfs.
      split; [done|]. split; [done|]. split; by apply sublist_skip.
    + destruct (_ || _ || _); cbn [fst snd] in Hfs.
      * exists st', w', (item :: fs). rewrite <- app_assoc in Hfs.
        split; [done|]. split; [done|].
        split; [by apply sublist_cons|by apply sublist_skip].
      * exists st', w', fs. split; [done|]. split; [done|].
        split; [done|by apply sublist_cons].
Qed.

Lemma outboxOf_lookup w1 w2 :
  kv w1 !! K_OUTBOX = kv w2 !! K_OUTBOX → outboxOf w1 = outboxOf w2.
Proof. unfold outboxOf, scansAt. by intros ->. Qed.

(** X12.  [pushOutbox] never loses a record: whatever the remote store
    and the storage do, the Outbox afterwards holds records that were in it
    before, unchanged and in their order, and every record the remote store
    failed is among them.  When the call throws, the Outbox is exactly as
    it was. *)
Theorem push_never_loses_a_record (e : PushEnv) (w : World) :
  sublist (outboxOf (snd (pushOutbox e w))) (outboxOf w) ∧
  sublist (reverse (failing (iter e) 0 (reverse (outboxOf w))))
          (outboxOf (snd (pushOutbox e w))) ∧
  (fst (pushOutbox e w) = Throw →
   kv (snd (pushOutbox e w)) !! K_OUTBOX = kv w !! K_OUTBOX).
Proof.
  assert (sublist (reverse (failing (iter e) 0 (reverse (outboxOf w)))) (outboxOf w))
    as Hfail.
  { rewrite <- (reverse_involutive (outboxOf w)) at 2.
    apply sublist_reverse, failing_sublist. }
  assert (kv (snd (pushOutbox e w)) = kv w →
          sublist (outboxOf (snd (pushOutbox e w))) (outboxOf w) ∧
          sublist (reverse (failing (iter e) 0 (reverse (outboxOf w))))
                  (outboxOf (snd (pushOutbox e w))) ∧
          (fst (pushOutbox e w) = Throw →
           kv (snd (pushOutbox e w)) !! K_OUTBOX = kv w !! K_OUTBOX)) as Hsame.
  { intros Heq. rewrite (outboxOf_lookup (snd (pushOutbox e w)) w) by (by rewrite Heq).
    by rewrite Heq. }
  destruct (push_session e) as [[uid|]|] eqn:Hs.
  2,3: apply Hsame; unfold pushOutbox; run; rewrite Hs; reflexivity.
  destruct (outbox_get_fault e) eqn:Hg.
  { apply Hsame. unfold pushOutbox. run. rewrite Hs, Hg. reflexivity. }
  destruct (notArray (push_parses e) (kv w !! K_OUTBOX)) eqn:Harr.
  { apply Hsame. rewrite (pushOutbox_session e w uid Hs Hg). cbv zeta.
    by rewrite Harr. }
  destruct (length (outboxOf w) =? 0)%nat eqn:Hlen.
  { apply Hsame. rewrite (pushOutbox_session e w uid Hs Hg). cbv zeta.
    by rewrite Harr, Hlen. }
  rewrite (pushOutbox_session e w uid Hs Hg). cbv zeta. rewrite Harr, Hlen.
  match goal with |- context [pushLoop uid ?ps ?it 0 ?items ?st ?w1] =>
    destruct (pushLoop_kept uid ps it items 0 st w1)
      as (st' & w2 & fs & Hloop & Hfs & Hlow & Hup);
    destruct (pushLoop_history uid ps it items 0 st w1)
      as (st'' & w2' & Hloop' & [Hframe _])
  end.
  rewrite Hloop in Hloop'. injection Hloop' as <- <-.
  rewrite Hloop. cbn [snd app] in Hfs. cbn [kv] in Hframe. run.
  assert (kv w2 !! K_OUTBOX = kv w !! K_OUTBOX) as Hout by (by apply Hframe).
  destruct (outbox_set_fault e); cbn [fst snd].
  - rewrite (outboxOf_lookup _ w) by exact Hout. cbn [kv]. done.
  - match goal with |- context [outboxOf ?w3] =>
      assert (outboxOf w3 = reverse fs) as ->
        by (unfold outboxOf, scansAt; cbn [kv]; by rewrite lookup_insert_eq, Hfs)
    end.
    split; [|split; [by apply sublist_reverse|done]].
    rewrite <- (reverse_involutive (outboxOf w)). by apply sublist_reverse.
Qed.

Lemma insertsOf_app t1 t2 : insertsOf (t1 ++ t2) = insertsOf t1 ++ insertsOf t2.
Proof. unfold insertsOf. apply omap_app. Qed.

(** The calls of one iteration: at most one insert, of the row of the
    record. *)
Lemma pushBody_trace uid parses e item st w :
  ∃ calls,
    trace (snd (pushBody uid parses e item st w)) = trace w ++ calls ∧
    Forall2 (sentAs uid) (offered1 e item) (insertsOf calls).
Proof.
  unfold pushBody, offered1, sentAs, tenantFor. run.
  destruct (tenantId item) as [t|] eqn:Ht;
    [|destruct (membership e) as [[t|]|] eqn:Hm];
    cbn [snd trace kv];
    try (exists [memberships_select uid]; rewrite <- ?app_assoc; split; [done|];
         constructor).
  all: destruct (insert e) as [err|]; cbn [snd trace kv];
    [destruct (accepted err); cbn [snd trace kv];
     [destruct (hist_get_fault e); cbn [snd trace kv];
      [|destruct (kv w !! K_HISTORY) as [[s|hist]|];
        [destruct (String.eqb s ""), (parses s)| |]; run;
        try (destruct (findIndex _ _); run;
             try destruct (hist_set_fault e); cbn [snd trace kv])]|]|].
  all: rewrite <- ?app_assoc; eexists; (split; [reflexivity|]).
  all: cbn; constructor; [|constructor].
  all: unfold rowOfRecord; cbn; rewrite ?Ht, ?Hm; repeat split.
Qed.

Lemma pushLoop_trace uid parses it items : ∀ i st w,
  ∃ calls,
    trace (snd (pushLoop uid parses it i items st w)) = trace w ++ calls ∧
    Forall2 (sentAs uid) (offered it i items) (insertsOf calls).
Proof.
  induction items as [|item rest IH]; intros i st w; cbn [pushLoop offered].
  - exists []. rewrite app_nil_r. split; [done|constructor].
  - destruct (pushBody_spec uid parses (it i) item st w) as (w1 & Hbody & _).
    destruct (pushBody_trace uid parses (it i) item st w) as (c1 & Htr1 & Hin1).
    unfold bind at 1. rewrite Hbody in *. cbn [snd] in Htr1.
    edestruct (IH (S i)) as (c2 & Htr2 & Hin2).
    exists (c1 ++ c2). rewrite Htr2, Htr1, <- app_assoc. split; [done|].
    rewrite insertsOf_app. by apply Forall2_app.
Qed.

Lemma offered_all it items : ∀ i,
  (∀ j, membership (it j) ≠ Rejects) →
  snd <$> offered it i items = items.
Proof.
  induction items as [|item rest IH]; intros i Hm; [done|].
  cbn [offered]. rewrite fmap_app, IH by done. unfold offered1. specialize (Hm i).
  destruct (tenantId item); [done|]. by destruct (membership (it i)).
Qed.

(** X13.  With a session, [pushOutbox] offers the queued records to the
    remote store oldest first (the Outbox is stored newest first), each at
    most once per call and each as its own row: the record's [clientRef],
    [createdAt], type, payload and meta, the session's user, and the
    record's tenant or, when it has none, the one the membership lookup
    answers ([null] when it answers none).  A record is skipped only when
    its tenant has to be looked up and the lookup rejects. *)
Theorem push_sends_oldest_first (e : PushEnv) (w : World) (uid : string) :
  push_session e = Resolves (Some uid) →
  outbox_get_fault e = false →
  let queued := reverse (outboxOf w) in
  ∃ calls,
    trace (snd (pushOutbox e w)) = trace w ++ calls ∧
    Forall2 (sentAs uid) (offered (iter e) 0 queued) (insertsOf calls) ∧
    sublist (snd <$> offered (iter e) 0 queued) queued ∧
    ((∀ i, membership (iter e i) ≠ Rejects) →
     snd <$> offered (iter e) 0 queued = queued ∧
     InsertRow.client_ref <$> insertsOf calls = clientRef <$> queued).
Proof.
  intros Hs Hg queued. subst queued.
  assert (∀ it items i, sublist (snd <$> offered it i items) items) as Hsub.
  { intros it items. induction items as [|item rest IH]; intros i; [done|].
    cbn [offered]. rewrite fmap_app. unfold offered1.
    destruct (tenantId item); [by apply sublist_skip|].
    destruct (membership (it i)); cbn [fmap list_fmap app snd];
      [by apply sublist_skip|by apply sublist_cons]. }
  assert (∀ (os : list (IterEnv * LocalScan)) rows,
            Forall2 (sentAs uid) os rows →
            InsertRow.client_ref <$> rows = clientRef <$> (snd <$> os)) as Hrefs.
  { induction 1 as [|o row os rows Ho _ IH]; [done|].
    rewrite !fmap_cons, IH. f_equal. by destruct Ho as (_ & _ & _ & _ & _ & ? & _). }
  assert (∀ calls,
            Forall2 (sentAs uid) (offered (iter e) 0 (reverse (outboxOf w)))
                    (insertsOf calls) →
            Forall2 (sentAs uid) (offered (iter e) 0 (reverse (outboxOf w)))
                    (insertsOf calls) ∧
            sublist (snd <$> offered (iter e) 0 (reverse (outboxOf w)))
                    (reverse (outboxOf w)) ∧
            ((∀ i, membership (iter e i) ≠ Rejects) →
             snd <$> offered (iter e) 0 (reverse (outboxOf w)) = reverse (outboxOf w) ∧
             InsertRow.client_ref <$> insertsOf calls =
               clientRef <$> reverse (outboxOf w))) as Hfin.
  { intros calls Hall. split; [done|]. split; [apply Hsub|]. intros Hm.
    split; [by apply offered_all|].
    rewrite (Hrefs _ _ Hall). by rewrite offered_all. }
  rewrite (pushOutbox_session e w uid Hs Hg). cbv zeta.
  assert (outboxOf w = [] →
          Forall2 (sentAs uid) (offered (iter e) 0 (reverse (outboxOf w)))
            (insertsOf [entered fn_pushOutbox; auth_getSession;
                        AsyncStorage_getItem K_OUTBOX])) as Hnil.
  { intros ->. constructor. }
  destruct (notArray (push_parses e) (kv w !! K_OUTBOX)) eqn:Harr.
  { eexists. cbn [snd trace]. split; [reflexivity|]. apply Hfin, Hnil.
    revert Harr. unfold notArray, outboxOf, scansAt.
    by destruct (kv w !! K_OUTBOX) as [[?|?]|]. }
  destruct (length (outboxOf w) =? 0)%nat eqn:Hlen.
  { apply Nat.eqb_eq in Hlen.
    eexists. cbn [snd trace]. split; [reflexivity|]. apply Hfin, Hnil.
    by destruct (outboxOf w). }
  match goal with |- context [pushLoop uid ?ps ?it 0 ?items ?st ?w1] =>
    destruct (pushLoop_trace uid ps it items 0 st w1) as (calls & Htr & Hins);
    destruct (pushLoop uid ps it 0 items st w1) as [[st'|] w2] eqn:Hloop
  end.
  2: { destruct (pushLoop_counts uid (push_parses e) (iter e) (reverse (outboxOf w)) 0
                   (0%nat, [])
                   {| kv := kv w;
                      trace := trace w ++ [entered fn_pushOutbox; auth_getSession;
                                           AsyncStorage_getItem K_OUTBOX] |})
         as (? & ? & Hl & _). congruence. }
  cbn [snd trace] in Htr. run.
  exists ([entered fn_pushOutbox; auth_getSession; AsyncStorage_getItem K_OUTBOX]
          ++ calls ++ [AsyncStorage_setItem K_OUTBOX (JsonScans (reverse (snd st')))]).
  assert (∀ t, insertsOf
            ([entered fn_pushOutbox; auth_getSession; AsyncStorage_getItem K_OUTBOX]
             ++ calls ++ [AsyncStorage_setItem K_OUTBOX t]) = insertsOf calls) as Hmid.
  { intros t. rewrite !insertsOf_app. cbn [insertsOf omap list_omap app].
    by rewrite app_nil_r. }
  destruct (outbox_set_fault e); cbn [snd trace]; rewrite Htr, <- !app_assoc;
    (split; [done|]); apply Hfin; by rewrite Hmid.
Qed.

(** X14.  With a session and nothing to push (the Outbox key is missing,
    holds an empty array, or holds a text that is empty or that
    [JSON.parse] rejects), [pushOutbox] returns [{ pushed: 0 }] after the
    session lookup and the read of the Outbox: it contacts the remote
    store no further and writes nothing, not even an empty Outbox.  When
    the key holds JSON of something that is not an array, [pushOutbox]
    throws after the same two calls, again without writing. *)
Theorem push_with_nothing_queued (e : PushEnv) (w : World) (uid : string) :
  push_session e = Resolves (Some uid) →
  outbox_get_fault e = false →
  outboxOf w = [] →
  let w1 := {| kv := kv w;
               trace := trace w ++ [entered fn_pushOutbox; auth_getSession;
                                    AsyncStorage_getItem K_OUTBOX] |} in
  (notArray (push_parses e) (kv w !! K_OUTBOX) = false →
   pushOutbox e w =
     (Ok {| pushed := 0; failed := None; push_reason := None |}, w1)) ∧
  (notArray (push_parses e) (kv w !! K_OUTBOX) = true →
   pushOutbox e w = (Throw, w1)).
Proof.
  intros Hs Hg Hout w1. subst w1.
  rewrite (pushOutbox_session e w uid Hs Hg). cbv zeta.
  rewrite Hout. split; by intros ->.
Qed.

(** X15.  A pass while nobody is signed in: once the cleanup has returned,
    [syncAll] returns [no-session] for the push and for the pull, without
    the error flag, and stores nothing: the Outbox, History and the
    watermark are as the cleanup left them, and no storage call is made by
    either stage. *)
Theorem sync_without_session_stores_nothing (e : SyncEnv) (w w1 : World) :
  purgeLegacyArtifactsOnce (purge_env e) (log (entered fn_syncAll) w) = (Ok tt, w1) →
  push_session (push_env e) = Resolves None →
  pull_session (pull_env e) = Resolves None →
  syncAll e w =
    (Ok {| push := {| pushed := 0; failed := None; push_reason := Some no_session |};
           pull := {| pulled := 0; pull_reason := Some no_session |};
           error := false |},
     {| kv := kv w1;
        trace := trace w1 ++ [entered fn_pushOutbox; auth_getSession;
                              entered fn_pullServer; auth_getSession] |}).
Proof.
  intros Hpurge Hpush Hpull. unfold syncAll.
  unfold bind at 1, enter at 1. cbv beta iota. unfold bind at 1. rewrite Hpurge.
  unfold try_catch, pushOutbox, pullServer. run. rewrite Hpush. cbn [kv trace].
  rewrite Hpull. cbn [kv trace]. by rewrite <- !app_assoc.
Qed.

(** ** More on the pull *)

(** X16.  A pull that returns a count has appended exactly the rows of
    the answer whose id History did not know, one entry per row, and has
    kept every entry History had: the new History is a rearrangement of
    the old one followed by the entries of the new rows, and the count is
    their number. *)
Theorem pull_appends_exactly_the_new_rows (e : PullEnv) (w : World) (n : nat) :
  fst (pullServer e w) = Ok {| pulled := n; pull_reason := None |} →
  ∃ data,
    select e = Resolves (QData data) ∧
    let new := fresh (byServerId (historyOf w)) (default [] data) in
    n = length new ∧
    historyOf (snd (pullServer e w)) ≡ₚ historyOf w ++ (fromRow <$> new) ∧
    length (historyOf (snd (pullServer e w))) = (length (historyOf w) + n)%nat.
Proof.
  intros Hret.
  destruct (pullServer_count_path e w n Hret)
    as (uid & data & Hs & Hg & Hq & Hhg & Harr & Hhs & Hm).
  destruct (pullServer_success e w uid data Hs Hg Hq Hhg Harr Hhs Hm)
    as (w' & Hrun & Hkv).
  rewrite Hrun in Hret |- *. cbn [fst snd] in *. injection Hret as <-.
  exists data. split; [done|]. cbv zeta.
  assert (historyOf w' = pulledHistory (historyOf w) (default [] data)) as ->.
  { unfold historyOf at 1, scansAt at 1. rewrite Hkv.
    rewrite lookup_insert_ne by done. by rewrite lookup_insert_eq. }
  assert (pulledHistory (historyOf w) (default [] data) ≡ₚ
          historyOf w ++ (fromRow <$> fresh (byServerId (historyOf w)) (default [] data)))
    as Hperm.
  { unfold pulledHistory. by rewrite arraySort_perm, merge_fold. }
  split; [done|]. split; [exact Hperm|].
  by rewrite Hperm, length_app, length_fmap.
Qed.

(** X17.  Pulling the same rows again adds nothing: after a pull that met
    no failure, a second pull that is answered the same rows returns
    [pulled = 0] and leaves History with the entries it had. *)
Theorem repeated_pull_adds_nothing (e1 e2 : PullEnv) (w : World) (n : nat) :
  fst (pullServer e1 w) = Ok {| pulled := n; pull_reason := None |} →
  select e2 = select e1 →
  (∃ uid, pull_session e2 = Resolves (Some uid)) →
  since_get_fault e2 = false →
  pull_hist_get_fault e2 = false → pull_hist_set_fault e2 = false →
  mark_set_fault e2 = false →
  fst (pullServer e2 (snd (pullServer e1 w))) =
    Ok {| pulled := 0; pull_reason := None |} ∧
  historyOf (snd (pullServer e2 (snd (pullServer e1 w)))) ≡ₚ
    historyOf (snd (pullServer e1 w)).
Proof.
  intros Hret Hsel [uid2 Hs2] Hg2 Hhg2 Hhs2 Hm2.
  destruct (pullServer_count_path e1 w n Hret)
    as (uid1 & data & Hs1 & Hg1 & Hq1 & Hhg1 & Harr1 & Hhs1 & Hm1).
  assert (select e2 = Resolves (QData data)) as Hq2 by congruence.
  destruct (pullServer_success e1 w uid1 data Hs1 Hg1 Hq1 Hhg1 Harr1 Hhs1 Hm1)
    as (w1 & Hrun1 & Hkv1).
  rewrite Hrun1. cbn [snd].
  assert (notArray (pull_parses e2) (kv w1 !! K_HISTORY) = false) as Harr2.
  { rewrite Hkv1. rewrite lookup_insert_ne by done. by rewrite lookup_insert_eq. }
  destruct (pullServer_success e2 w1 uid2 data Hs2 Hg2 Hq2 Hhg2 Harr2 Hhs2 Hm2)
    as (w2 & Hrun2 & Hkv2).
  rewrite Hrun2. cbn [fst snd].
  assert (historyOf w1 = pulledHistory (historyOf w) (default [] data)) as Hh1.
  { unfold historyOf at 1, scansAt at 1. rewrite Hkv1.
    rewrite lookup_insert_ne by done. by rewrite lookup_insert_eq. }
  assert (historyOf w2 = pulledHistory (historyOf w1) (default [] data)) as Hh2.
  { unfold historyOf at 1, scansAt at 1. rewrite Hkv2.
    rewrite lookup_insert_ne by done. by rewrite lookup_insert_eq. }
  assert (fresh (byServerId (historyOf w1)) (default [] data) = []) as Hnone.
  { rewrite Hh1. apply fresh_after_merge. }
  split; [by rewrite Hnone|].
  rewrite Hh2. unfold pulledHistory at 1.
  rewrite arraySort_perm, merge_fold, Hnone. cbn [fst fmap list_fmap].
  by rewrite app_nil_r.
Qed.

(** ** The tenant of the user (lib/resolveTenant.ts) *)

(** The storage after the resolution from the memberships: touched only
    by the final save. *)
Lemma resolveFromMemberships_cases e w :
  (fst (resolveTenant.resolveFromMemberships e w) = Throw ∧
   kv (snd (resolveTenant.resolveFromMemberships e w)) = kv w) ∨
  ∃ mems first rest,
    memberships e = Resolves (QData (Some mems)) ∧
    arraySort byPriority mems = first :: rest ∧
    fst (resolveTenant.resolveFromMemberships e w) = Ok (Plain (m_tenant_id first)) ∧
    kv (snd (resolveTenant.resolveFromMemberships e w)) =
      <[TENANT_KEY := Plain (m_tenant_id first)]> (kv w).
Proof.
  unfold resolveTenant.resolveFromMemberships, answer, setTenantId. run.
  destruct (getUser e) as [[[uid|]|]|]; cbn [fst snd kv]; try (by left).
  destruct (String.eqb uid ""); cbn [fst snd kv]; try (by left).
  destruct (memberships e) as [[[mems|]|]|]; cbn [fst snd kv]; try (by left).
  destruct (length mems =? 0)%nat; cbn [fst snd kv]; try (by left).
  destruct (arraySort byPriority mems) as [|first rest] eqn:Hsort;
    cbn [fst snd kv]; try (by left).
  destruct (tenant_set_fault e); cbn [fst snd kv]; [by left|].
  right. by exists mems, first, rest.
Qed.

(** X18.  The tenant is resolved once: after a call that returned a
    (non-empty) id, every later call returns that id from the storage
    after one read, without asking for the user or the memberships
    (whatever they would answer by then) and without writing. *)
Theorem tenant_is_resolved_once (e : TenantEnv) (w w1 : World) (t : Text) :
  resolveTenant.ensureTenantId e w = (Ok t, w1) →
  truthy (Some t) = true →
  ∀ e',
    tenant_get_fault e' = false →
    resolveTenant.ensureTenantId e' w1 =
      (Ok t, log (AsyncStorage_getItem TENANT_KEY) w1).
Proof.
  intros Hrun Htruthy e' Hg'.
  assert (kv w1 !! TENANT_KEY = Some t) as Hstored.
  { revert Hrun. unfold resolveTenant.ensureTenantId, getTenantId.
    unfold bind at 1, getItem at 1.
    destruct (tenant_get_fault e); [discriminate|].
    set (w0 := log (AsyncStorage_getItem TENANT_KEY) w).
    assert (resolveTenant.resolveFromMemberships e w0 = (Ok t, w1) →
            kv w1 !! TENANT_KEY = Some t) as Hresolve.
    { intros Hr.
      destruct (resolveFromMemberships_cases e w0)
        as [[Hthrow _]|(mems & first & rest & _ & _ & Hok & Hkv)];
        rewrite Hr in *; cbn [fst snd] in *; [discriminate|].
      injection Hok as ->. by rewrite Hkv, lookup_insert_eq. }
    destruct (kv w !! TENANT_KEY) as [t0|] eqn:Hcell; [|exact Hresolve].
    destruct (truthy (Some t0)); [|exact Hresolve].
    unfold ret. intros [= -> <-]. exact Hcell. }
  unfold resolveTenant.ensureTenantId, getTenantId. run.
  rewrite Hg', Hstored. by rewrite Htruthy.
Qed.

(** X19.  A call that throws has stored nothing; and it throws, in
    particular, when no id is stored and the user has no membership. *)
Theorem tenant_failure_stores_nothing (e : TenantEnv) (w : World) :
  (fst (resolveTenant.ensureTenantId e w) = Throw →
   kv (snd (resolveTenant.ensureTenantId e w)) = kv w) ∧
  (tenantUnset w →
   memberships e = Resolves (QData (Some [])) →
   fst (resolveTenant.ensureTenantId e w) = Throw).
Proof.
  unfold tenantUnset, resolveTenant.ensureTenantId, getTenantId.
  unfold bind at 1 2 3, getItem at 1 2 3.
  destruct (tenant_get_fault e); [done|].
  set (w0 := log (AsyncStorage_getItem TENANT_KEY) w).
  assert ((fst (resolveTenant.resolveFromMemberships e w0) = Throw →
           kv (snd (resolveTenant.resolveFromMemberships e w0)) = kv w) ∧
          (memberships e = Resolves (QData (Some [])) →
           fst (resolveTenant.resolveFromMemberships e w0) = Throw)) as [Hr1 Hr2].
  { split.
    - intros Hthrow.
      destruct (resolveFromMemberships_cases e w0)
        as [[_ Hkv]|(mems & first & rest & _ & _ & Hok & _)]; [done|congruence].
    - intros Hm.
      destruct (resolveFromMemberships_cases e w0)
        as [[Hthrow _]|(mems & first & rest & Hm' & Hsort & _)]; [done|].
      rewrite Hm in Hm'. injection Hm' as <-. done. }
  destruct (kv w !! TENANT_KEY) as [t0|] eqn:Hcell; [|by split].
  destruct (truthy (Some t0)) eqn:Ht; [|by split].
  split; [done|]. intros Hunset. done.
Qed.

Lemma sorted_head_has_top_rank mems : ∀ first rest,
  Forall ordinaryRole mems →
  arraySort byPriority mems = first :: rest →
  ∀ m, m ∈ mems → (rank m ≤ rank first)%Z.
Proof.
  unfold arraySort.
  induction mems as [|x mems IH]; intros first rest Hord Hsort m Hm; [by inv Hm|].
  apply Forall_cons in Hord as [Hx Hord]. cbn [foldr] in Hsort.
  destruct (foldr (sortInsert byPriority) [] mems) as [|y sorted] eqn:Htail.
  - assert (mems = []) as ->.
    { pose proof (arraySort_perm byPriority mems) as Hp. unfold arraySort in Hp.
      rewrite Htail in Hp. by apply Permutation_nil_l in Hp. }
    cbn in Hsort. injection Hsort as <- <-. inv Hm; [lia|by inv H1].
  - assert (y ∈ mems) as Hy.
    { pose proof (arraySort_perm byPriority mems) as Hp. unfold arraySort in Hp.
      rewrite Htail in Hp. rewrite <- Hp. apply list_elem_of_here. }
    assert (ordinaryRole y) as Hyo by (eapply Forall_forall; eauto).
    specialize (IH y sorted Hord eq_refl).
    assert (byPriority x y = (rank y - rank x)%Z) as Hcmp.
    { unfold byPriority, rank. destruct Hx as [px ->], Hyo as [py ->]. done. }
    cbn [sortInsert] in Hsort. rewrite Hcmp in Hsort.
    destruct (Z.leb_spec (rank y - rank x) 0) as [Hle|Hgt].
    + injection Hsort as <- _. inv Hm; [lia|].
      etrans; [by apply IH|]. lia.
    + injection Hsort as <- _. inv Hm; [lia|by apply IH].
Qed.

(** X20.  When no id is stored, the id returned is the tenant of one of
    the user's memberships, and (for roles that are not names every object
    inherits) of one whose role ranks highest: owner before admin before
    member before any other role. *)
Theorem resolved_tenant_has_top_role (e : TenantEnv) (w w1 : World) (t : Text) :
  tenantUnset w →
  resolveTenant.ensureTenantId e w = (Ok t, w1) →
  ∃ mems m,
    memberships e = Resolves (QData (Some mems)) ∧
    m ∈ mems ∧
    t = Plain (m_tenant_id m) ∧
    kv w1 !! TENANT_KEY = Some t ∧
    (Forall ordinaryRole mems → ∀ m', m' ∈ mems → (rank m' ≤ rank m)%Z).
Proof.
  unfold tenantUnset, resolveTenant.ensureTenantId, getTenantId.
  unfold bind at 1, getItem at 1. intros Hunset.
  destruct (tenant_get_fault e); [discriminate|].
  set (w0 := log (AsyncStorage_getItem TENANT_KEY) w).
  assert (resolveTenant.resolveFromMemberships e w0 = (Ok t, w1) →
          ∃ mems m,
            memberships e = Resolves (QData (Some mems)) ∧ m ∈ mems ∧
            t = Plain (m_tenant_id m) ∧ kv w1 !! TENANT_KEY = Some t ∧
            (Forall ordinaryRole mems → ∀ m', m' ∈ mems → (rank m' ≤ rank m)%Z))
    as Hresolve.
  { intros Hr.
    destruct (resolveFromMemberships_cases e w0)
      as [[Hthrow _]|(mems & first & rest & Hm & Hsort & Hok & Hkv)];
      rewrite Hr in *; cbn [fst snd] in *; [discriminate|].
    injection Hok as ->. exists mems, first.
    split; [done|]. split.
    { rewrite <- (arraySort_perm byPriority mems), Hsort. apply list_elem_of_here. }
    split; [done|]. split; [by rewrite Hkv, lookup_insert_eq|].
    intros Hord. by eapply sorted_head_has_top_rank. }
  destruct (kv w !! TENANT_KEY) as [t0|] eqn:Hcell; [|exact Hresolve].
  cbn [kv log] in Hunset. rewrite Hunset. exact Hresolve.
Qed.

(** ** The further theorems at work on sample runs *)

Lemma bus_on_delivers_once_witness :
  busWf oneListener ∧
  ¬ shadowsNothing "scan:insert" oneListener ∧
  ∃ after,
    bus.on "scan:insert" 1%nat oneListener = Some after ∧
    bus.emit "scan:insert" "row" after = Some [(1%nat, "row")].
Proof.
  assert (busWf oneListener) as Hone.
  { intros event s. unfold oneListener.
    destruct (decide ("scan:insert" = event)) as [<-|Hne].
    - rewrite lookup_insert_eq. intros [= <-]. apply NoDup_singleton.
    - rewrite lookup_insert_ne by done. rewrite lookup_empty. discriminate. }
  assert (¬ shadowsNothing "scan:insert" oneListener) as Hns.
  { intros [_ Hnone]. vm_compute in Hnone. discriminate. }
  split; [exact Hone|]. split; [exact Hns|].
  destruct (proj2 (bus_on_delivers_once "scan:insert" 1%nat oneListener "row" Hone) Hns)
    as (after & Hon & _ & _ & _ & Hemit & _).
  exists after. split; [exact Hon|exact Hemit].
Defined.

Lemma bus_off_silences_witness :
  ∃ after calls,
    bus.off "scan:insert" 1%nat oneListener = Some after ∧
    bus.emit "scan:insert" "row" oneListener = Some calls ∧
    bus.emit "scan:insert" "row" after = Some (filter (λ c, fst c ≠ 1%nat) calls).
Proof.
  destruct (proj2 (proj2 (bus_off_silences "scan:insert" 1%nat oneListener "row"))
              _ eq_refl)
    as ((calls & Hbefore & Hafter & _) & _).
  eexists _, calls. split; [reflexivity|]. split; [exact Hbefore|exact Hafter].
Defined.

Lemma bus_on_off_round_trip_witness :
  (2%nat ∉ subscribers "scan:insert" oneListener) ∧
  ∃ subscribed after,
    bus.on "scan:insert" 2%nat oneListener = Some subscribed ∧
    bus.off "scan:insert" 2%nat subscribed = Some after ∧
    bus.emit "scan:insert" "row" after = bus.emit "scan:insert" "row" oneListener.
Proof.
  assert (2%nat ∉ subscribers "scan:insert" oneListener) as Hfresh.
  { apply (bool_decide_unpack _). vm_compute. exact I. }
  split; [exact Hfresh|].
  destruct (bus_on_off_round_trip (P := string) "scan:insert" 2%nat oneListener Hfresh
              _ eq_refl) as (after & Hoff & Hemit).
  eexists _, after. split; [reflexivity|]. split; [exact Hoff|apply Hemit].
Defined.

Lemma history_insert_is_idempotent_witness :
  NoDup (HistoryScreen.id <$> [screenRow 1; screenRow 2]) ∧
  NoDup (HistoryScreen.id <$>
           HistoryScreen.onInsert (screenRow 3) [screenRow 1; screenRow 2]).
Proof.
  assert (NoDup (HistoryScreen.id <$> [screenRow 1; screenRow 2])) as Hnd.
  { apply (bool_decide_unpack _). vm_compute. exact I. }
  split; [exact Hnd|].
  exact (proj1 (proj2 (proj2 (history_insert_is_idempotent (screenRow 3)
                                [screenRow 1; screenRow 2]))) Hnd).
Defined.

Lemma history_delete_after_insert_witness :
  HistoryScreen.hasId 3 [screenRow 1; screenRow 2] = false ∧
  HistoryScreen.onDelete 3 (HistoryScreen.onInsert (screenRow 3)
                              [screenRow 1; screenRow 2]) =
    take (HistoryScreen.PAGE - 1) [screenRow 1; screenRow 2].
Proof.
  split; [reflexivity|].
  exact (proj2 (proj2 (proj2 (history_delete_after_insert (screenRow 3)
                                [screenRow 1; screenRow 2] 3))) eq_refl).
Defined.

Lemma history_update_keeps_ids_witness :
  HistoryScreen.hasId 3 [screenRow 1; screenRow 2] = false ∧
  HistoryScreen.onUpdate (screenRow 3) [screenRow 1; screenRow 2] =
    [screenRow 1; screenRow 2].
Proof.
  split; [reflexivity|].
  exact (proj2 (proj2 (history_update_keeps_ids (screenRow 3)
                         [screenRow 1; screenRow 2])) eq_refl).
Defined.

Lemma listeners_never_raise_witness :
  fst (syncAll syncFlagUnreadable freshWorld) = Throw ∧
  fst (onNetInfo syncFlagUnreadable online freshWorld) = Ok tt ∧
  onNetInfo syncFine offline queuedWorld = (Ok tt, queuedWorld) ∧
  snd (onAppState syncFine "active" queuedWorld) = snd (syncAll syncFine queuedWorld).
Proof.
  split; [vm_compute; reflexivity|].
  split; [exact (proj1 (listeners_never_raise syncFlagUnreadable online "active"
                          freshWorld))|].
  split.
  - exact (proj1 (proj2 (proj2 (listeners_never_raise syncFine offline "active"
                                  queuedWorld))) eq_refl).
  - exact (proj2 (proj2 (proj2 (proj2 (proj2
             (listeners_never_raise syncFine online "active" queuedWorld)))))
             eq_refl).
Defined.

Lemma purge_touches_only_legacy_keys_witness :
  ¬ flagSet legacyWorld ∧
  fst (purgeLegacyArtifactsOnce storageFine legacyWorld) = Ok tt ∧
  kv (snd (purgeLegacyArtifactsOnce storageFine legacyWorld)) !! "SYNC_LOCK" = None ∧
  historyOf (snd (purgeLegacyArtifactsOnce storageFine legacyWorld)) = [scanA].
Proof.
  assert (¬ flagSet legacyWorld) as Hunset by (vm_compute; discriminate).
  assert (fst (purgeLegacyArtifactsOnce storageFine legacyWorld) = Ok tt) as Hok
    by (vm_compute; reflexivity).
  destruct (purge_touches_only_legacy_keys storageFine legacyWorld)
    as (_ & (Hhist & _) & Hgone).
  split; [exact Hunset|]. split; [exact Hok|]. split.
  - apply (proj1 (Hgone Hunset Hok)). apply (bool_decide_unpack _). vm_compute. exact I.
  - rewrite Hhist. vm_compute. reflexivity.
Defined.

Lemma purge_sets_flag_only_on_success_witness :
  fst (purgeLegacyArtifactsOnce removeFails legacyWorld) = Throw ∧
  kv (snd (purgeLegacyArtifactsOnce removeFails legacyWorld)) !! K_LEGACY_CLEANED =
    kv legacyWorld !! K_LEGACY_CLEANED ∧
  flagSet (snd (purgeLegacyArtifactsOnce storageFine
                  (snd (purgeLegacyArtifactsOnce removeFails legacyWorld)))).
Proof.
  assert (fst (purgeLegacyArtifactsOnce removeFails legacyWorld) = Throw) as Hthrow
    by (vm_compute; reflexivity).
  split; [exact Hthrow|]. split.
  - exact (proj1 (purge_sets_flag_only_on_success removeFails legacyWorld) Hthrow).
  - exact (proj2 (proj2 (purge_sets_flag_only_on_success storageFine _)
                    eq_refl eq_refl eq_refl)).
Defined.

Lemma scan_screen_cleanup_agrees_witness :
  fst (scanScreenCleanup storageFine legacyWorld) = Ok tt ∧
  purgeLegacyArtifactsOnce storageFine (snd (scanScreenCleanup storageFine legacyWorld)) =
    (Ok tt, readsFlagOnly (snd (scanScreenCleanup storageFine legacyWorld))).
Proof.
  assert (fst (scanScreenCleanup storageFine legacyWorld) = Ok tt) as Hok
    by (vm_compute; reflexivity).
  split; [exact Hok|].
  exact (proj2 (proj2 (scan_screen_cleanup_agrees storageFine legacyWorld)) Hok
           storageFine).
Defined.

Lemma retired_purge_never_raises_witness :
  kv (snd (offlineQueue.purgeSyncArtifactsOnce false legacyWorld)) !! "SYNC_LOCK" = None ∧
  kv (snd (offlineQueue.purgeSyncArtifactsOnce false legacyWorld)) !! K_HISTORY =
    kv legacyWorld !! K_HISTORY.
Proof.
  destruct (retired_purge_never_raises false legacyWorld)
    as (_ & _ & Hframe & _ & Hgone).
  split.
  - apply (Hgone eq_refl). apply (bool_decide_unpack _). vm_compute. exact I.
  - apply Hframe. apply (bool_decide_unpack _). vm_compute. exact I.
Defined.

Lemma push_never_loses_a_record_witness :
  fst (pushOutbox pushWriteFails queuedWorld) = Throw ∧
  kv (snd (pushOutbox pushWriteFails queuedWorld)) !! K_OUTBOX =
    kv queuedWorld !! K_OUTBOX.
Proof.
  assert (fst (pushOutbox pushWriteFails queuedWorld) = Throw) as Hthrow
    by (vm_compute; reflexivity).
  split; [exact Hthrow|].
  exact (proj2 (proj2 (push_never_loses_a_record pushWriteFails queuedWorld)) Hthrow).
Defined.

Lemma push_sends_oldest_first_witness :
  ∃ calls,
    trace (snd (pushOutbox pushFirstFails queuedWorld)) = trace queuedWorld ++ calls ∧
    InsertRow.client_ref <$> insertsOf calls = ["a1"; "b2"].
Proof.
  destruct (push_sends_oldest_first pushFirstFails queuedWorld "u1" eq_refl eq_refl)
    as (calls & Htrace & _ & _ & Hall).
  exists calls. split; [exact Htrace|]. apply Hall.
  intros i. cbn. destruct (i =? 0)%nat; discriminate.
Defined.

Lemma push_with_nothing_queued_witness :
  outboxOf freshWorld = [] ∧
  outboxOf objectInOutbox = [] ∧
  fst (pushOutbox pushFine freshWorld) =
    Ok {| pushed := 0; failed := None; push_reason := None |} ∧
  fst (pushOutbox pushFine objectInOutbox) = Throw.
Proof.
  split; [reflexivity|]. split; [reflexivity|]. split.
  - rewrite (proj1 (push_with_nothing_queued pushFine freshWorld "u1"
                      eq_refl eq_refl eq_refl) eq_refl).
    reflexivity.
  - rewrite (proj2 (push_with_nothing_queued pushFine objectInOutbox "u1"
                      eq_refl eq_refl eq_refl) eq_refl).
    reflexivity.
Defined.

Lemma sync_without_session_stores_nothing_witness :
  let w1 := snd (purgeLegacyArtifactsOnce storageFine
                   (log (entered fn_syncAll) queuedWorld)) in
  kv (snd (syncAll syncSignedOut queuedWorld)) = kv w1 ∧
  fst (syncAll syncSignedOut queuedWorld) =
    Ok {| push := {| pushed := 0; failed := None; push_reason := Some no_session |};
          pull := {| pulled := 0; pull_reason := Some no_session |};
          error := false |}.
Proof.
  intros w1.
  assert (purgeLegacyArtifactsOnce (purge_env syncSignedOut)
            (log (entered fn_syncAll) queuedWorld) = (Ok tt, w1)) as Hpurge
    by (vm_compute; reflexivity).
  rewrite (sync_without_session_stores_nothing syncSignedOut queuedWorld w1
             Hpurge eq_refl eq_refl).
  split; reflexivity.
Defined.

Lemma pull_appends_exactly_the_new_rows_witness :
  let e := pullTwoRows "2025-03-03T00:00:00.000Z" in
  fst (pullServer e queuedWorld) = Ok {| pulled := 2; pull_reason := None |} ∧
  length (historyOf (snd (pullServer e queuedWorld))) = 4%nat.
Proof.
  intros e.
  assert (fst (pullServer e queuedWorld) = Ok {| pulled := 2; pull_reason := None |})
    as Hret by (vm_compute; reflexivity).
  split; [exact Hret|].
  destruct (pull_appends_exactly_the_new_rows e queuedWorld 2 Hret)
    as (data & _ & _ & _ & Hlen).
  exact Hlen.
Defined.

Lemma repeated_pull_adds_nothing_witness :
  let e := pullTwoRows "2025-03-03T00:00:00.000Z" in
  fst (pullServer e queuedWorld) = Ok {| pulled := 2; pull_reason := None |} ∧
  fst (pullServer e (snd (pullServer e queuedWorld))) =
    Ok {| pulled := 0; pull_reason := None |}.
Proof.
  intros e.
  assert (fst (pullServer e queuedWorld) = Ok {| pulled := 2; pull_reason := None |})
    as Hret by (vm_compute; reflexivity).
  split; [exact Hret|].
  refine (proj1 (repeated_pull_adds_nothing e e queuedWorld 2 Hret eq_refl _
                   eq_refl eq_refl eq_refl eq_refl)).
  by exists "u1".
Defined.

Lemma tenant_is_resolved_once_witness :
  fst (resolveTenant.ensureTenantId tenantsAnswered freshWorld) = Ok (Plain "t2") ∧
  fst (resolveTenant.ensureTenantId tenantsUnreachable
         (snd (resolveTenant.ensureTenantId tenantsAnswered freshWorld))) =
    Ok (Plain "t2").
Proof.
  split; [vm_compute; reflexivity|].
  assert (resolveTenant.ensureTenantId tenantsAnswered freshWorld =
          (Ok (Plain "t2"), snd (resolveTenant.ensureTenantId tenantsAnswered freshWorld)))
    as Hrun by (vm_compute; reflexivity).
  rewrite (tenant_is_resolved_once tenantsAnswered freshWorld _ (Plain "t2") Hrun
             eq_refl tenantsUnreachable eq_refl).
  reflexivity.
Defined.

Lemma tenant_failure_stores_nothing_witness :
  tenantUnset freshWorld ∧
  fst (resolveTenant.ensureTenantId noMembership freshWorld) = Throw ∧
  kv (snd (resolveTenant.ensureTenantId noMembership freshWorld)) = kv freshWorld.
Proof.
  assert (tenantUnset freshWorld) as Hunset by reflexivity.
  destruct (tenant_failure_stores_nothing noMembership freshWorld) as [Hkeep Hthrow].
  split; [exact Hunset|]. split; [exact (Hthrow Hunset eq_refl)|].
  exact (Hkeep (Hthrow Hunset eq_refl)).
Defined.

Lemma resolved_tenant_has_top_role_witness :
  tenantUnset freshWorld ∧
  ∃ mems m,
    memberships tenantsAnswered = Resolves (QData (Some mems)) ∧
    m ∈ mems ∧
    Plain "t2" = Plain (m_tenant_id m).
Proof.
  assert (tenantUnset freshWorld) as Hunset by reflexivity.
  split; [exact Hunset|].
  assert (resolveTenant.ensureTenantId tenantsAnswered freshWorld =
          (Ok (Plain "t2"), snd (resolveTenant.ensureTenantId tenantsAnswered freshWorld)))
    as Hrun by (vm_compute; reflexivity).
  destruct (resolved_tenant_has_top_role tenantsAnswered freshWorld _ (Plain "t2")
              Hunset Hrun) as (mems & m & Hm & Hin & Ht & _).
  by exists mems, m.
Defined.

(** ** The scan screen *)

(** X21.  The list of the scan screen.  It starts empty.  Deleting an
    item removes the items of that id and keeps the others in their order.
    Loading the stored list when the screen mounts replaces the list by
    the stored one (by the empty list when the stored JSON is not an
    array, not at all when nothing is stored or the text is not JSON) and
    leaves the two refs alone.  Accepting an event puts the new item
    first and cuts the list to 200 items; an accepted event is at least
    800 ms later than the one before, whatever the clock does.  So the
    list holds 200 items at most after an accepted event, and the ids stay
    distinct over a deletion, over the load of a list with distinct ids,
    and over an accepted event whose time is not the id of an item of the
    list.  The latter is certain as long as no item is later than the last
    accepted event, which holds until a stored list is loaded; after a
    load the ids can repeat, when the clock reads the time of a stored
    item again. *)
Theorem scan_list_stays_sound (now : Z) (data type : string)
    (s : ScanScreen.State) :
  (scanListSound ScanScreen.initial ∧ idsNotLater ScanScreen.initial) ∧
  (∀ i,
     ScanScreen.history (ScanScreen.removeItem i s) =
       filter (λ x, ScanScreen.id x ≠ i) (ScanScreen.history s) ∧
     (i ∉ ScanScreen.id <$> ScanScreen.history (ScanScreen.removeItem i s)) ∧
     sublist (ScanScreen.history (ScanScreen.removeItem i s)) (ScanScreen.history s) ∧
     (scanListSound s → scanListSound (ScanScreen.removeItem i s)) ∧
     (idsNotLater s → idsNotLater (ScanScreen.removeItem i s))) ∧
  (∀ raw,
     ScanScreen.lastScannedAt (ScanScreen.loadHistory raw s) =
       ScanScreen.lastScannedAt s ∧
     ScanScreen.lastDataRef (ScanScreen.loadHistory raw s) = ScanScreen.lastDataRef s ∧
     (∀ l, raw = ScanScreen.storedItems l →
           ScanScreen.history (ScanScreen.loadHistory raw s) = l) ∧
     (raw = ScanScreen.notAnArray →
      ScanScreen.history (ScanScreen.loadHistory raw s) = []) ∧
     (raw = ScanScreen.nothingStored ∨ raw = ScanScreen.notJson →
      ScanScreen.loadHistory raw s = s) ∧
     (scanListSound s →
      (∀ l, raw = ScanScreen.storedItems l → listSound l) →
      scanListSound (ScanScreen.loadHistory raw s))) ∧
  (∀ s', ScanScreen.handleScanned now data type s = Some s' →
     (ScanScreen.lastScannedAt s + 800 ≤ ScanScreen.lastScannedAt s')%Z ∧
     ScanScreen.history s' =
       take 200 ({| ScanScreen.id := now; ScanScreen.value := data;
                    ScanScreen.type := type; ScanScreen.ts := now |}
                 :: ScanScreen.history s) ∧
     (length (ScanScreen.history s') ≤ 200)%nat ∧
     (scanListSound s →
      (now ∉ ScanScreen.id <$> ScanScreen.history s) →
      scanListSound s') ∧
     (idsNotLater s →
      (now ∉ ScanScreen.id <$> ScanScreen.history s) ∧ idsNotLater s')) ∧
  (∃ stored later s1,
     scanListSound (ScanScreen.loadHistory (ScanScreen.storedItems stored)
                      ScanScreen.initial) ∧
     ScanScreen.handleScanned later data type
       (ScanScreen.loadHistory (ScanScreen.storedItems stored) ScanScreen.initial)
       = Some s1 ∧
     ¬ scanListSound s1).
Proof.
  split; [|split; [|split; [|split]]].
  - split; [split; cbn; [lia|constructor]|constructor].
  - intros i. unfold scanListSound, listSound, idsNotLater, ScanScreen.removeItem.
    cbn [ScanScreen.history ScanScreen.lastScannedAt].
    split; [done|]. split; [|split; [apply sublist_filter|split]].
    + intros Hin. apply list_elem_of_fmap in Hin as (x & Hx & Hin).
      apply list_elem_of_filter in Hin as [Hne _]. by apply Hne.
    + intros [Hlen Hnd]. split.
      * etrans; [apply length_filter|done].
      * apply (sublist_NoDup _ _ Hnd), fmap_sublist, sublist_filter.
    + intros Hle. apply Forall_forall. intros x Hx.
      apply list_elem_of_filter in Hx as [_ Hx]. by eapply Forall_forall in Hle.
  - intros raw. split; [by destruct raw|]. split; [by destruct raw|].
    split; [by intros l ->|]. split; [by intros ->|]. split; [by intros [->| ->]|].
    intros Hs Hl. destruct raw as [| | |l]; cbn [ScanScreen.loadHistory]; try done.
    + unfold scanListSound, listSound. cbn. split; [lia|constructor].
    + by apply Hl.
  - intros s'. unfold ScanScreen.handleScanned.
    destruct (Z.ltb_spec (now - ScanScreen.lastScannedAt s) 800) as [|Hlate];
      [discriminate|].
    destruct (_ && _); [discriminate|]. intros [= <-].
    unfold scanListSound, listSound, idsNotLater.
    cbn [ScanScreen.history ScanScreen.lastScannedAt].
    repeat match goal with |- context [?x :: take 199 ?l] =>
      change (x :: take 199 l) with (take 200 (x :: l)) end.
    assert ((now ∉ ScanScreen.id <$> ScanScreen.history s) →
            NoDup (ScanScreen.id <$> ScanScreen.history s) →
            NoDup (ScanScreen.id <$>
              take 200 ({| ScanScreen.id := now; ScanScreen.value := data;
                           ScanScreen.type := type; ScanScreen.ts := now |}
                        :: ScanScreen.history s))) as Hnd'.
    { intros Hnew Hnd.
      apply (sublist_NoDup _ (ScanScreen.id <$>
               {| ScanScreen.id := now; ScanScreen.value := data;
                  ScanScreen.type := type; ScanScreen.ts := now |}
               :: ScanScreen.history s)).
      - rewrite fmap_cons. by apply NoDup_cons.
      - apply fmap_sublist, sublist_take. }
    split; [lia|]. split; [done|]. split; [rewrite length_take; lia|]. split.
    + intros [Hlen Hnd] Hnew. split; [rewrite length_take; lia|by apply Hnd'].
    + intros Hle. split.
      * intros Hin. apply list_elem_of_fmap in Hin as (x & Hid & Hx).
        eapply Forall_forall in Hle; [|exact Hx]. lia.
      * apply Forall_forall. intros x Hx. apply elem_of_take in Hx as (n & Hx & _).
        apply list_elem_of_lookup_2 in Hx. apply elem_of_cons in Hx as [->|Hx].
        -- cbn. lia.
        -- eapply Forall_forall in Hle; [|exact Hx]. lia.
  - exists [storedScan 1740823200000], 1740823200000%Z. eexists.
    split; [|split].
    + split; cbn; [lia|]. apply NoDup_singleton.
    + unfold ScanScreen.handleScanned. cbn. rewrite andb_false_r. reflexivity.
    + intros [_ Hnd]. cbn in Hnd. apply NoDup_cons in Hnd as [Hnew _].
      apply Hnew, list_elem_of_here.
Qed.

(** X22.  The same code is not recorded twice in a row: once an event
    with a non-empty value has been accepted, every further event with
    that value is dropped, however much later it comes, until an event
    with another value has been accepted; and an event that comes less
    than 800 ms after an accepted one is dropped whatever its value. *)
Theorem scan_same_value_is_dropped (now : Z) (data type : string)
    (s s' : ScanScreen.State) :
  ScanScreen.handleScanned now data type s = Some s' →
  (data ≠ "" →
   ∀ later type', ScanScreen.handleScanned later data type' s' = None) ∧
  (∀ later data' type',
     (later < now + 800)%Z →
     ScanScreen.handleScanned later data' type' s' = None) ∧
  (∀ later data' type',
     (now + 800 ≤ later)%Z → data' ≠ data →
     is_Some (ScanScreen.handleScanned later data' type' s')).
Proof.
  unfold ScanScreen.handleScanned at 1.
  destruct (now - ScanScreen.lastScannedAt s <? 800)%Z; [discriminate|].
  destruct (_ && _); [discriminate|]. intros [= <-].
  unfold ScanScreen.handleScanned.
  cbn [ScanScreen.lastScannedAt ScanScreen.lastDataRef]. split; [|split].
  - intros Hne later type'. destruct (later - now <? 800)%Z; [done|].
    rewrite bool_decide_eq_true_2 by done.
    by destruct (String.eqb_spec data "").
  - intros later data' type' Hsoon.
    destruct (Z.ltb_spec (later - now) 800); [done|lia].
  - intros later data' type' Hlate Hother.
    destruct (Z.ltb_spec (later - now) 800); [lia|].
    rewrite bool_decide_eq_false_2 by congruence. by rewrite andb_false_r.
Qed.

(** ** The result of a pass *)

(** X23.  Once the cleanup has returned, [syncAll] returns a result.  The
    result carries the error flag exactly when the push or the pull threw,
    and it is then the fixed result with both counts at zero, whatever the
    push had reported before the pull threw. *)
Theorem sync_result_after_cleanup (e : SyncEnv) (w w1 : World) :
  purgeLegacyArtifactsOnce (purge_env e) (log (entered fn_syncAll) w) = (Ok tt, w1) →
  ∃ r w',
    syncAll e w = (Ok r, w') ∧
    (error r = true ↔
     fst (pushOutbox (push_env e) w1) = Throw ∨
     fst (pullServer (pull_env e) (snd (pushOutbox (push_env e) w1))) = Throw) ∧
    (error r = true → r = swallowed) ∧
    (error r = false →
     fst (pushOutbox (push_env e) w1) = Ok (push r) ∧
     fst (pullServer (pull_env e) (snd (pushOutbox (push_env e) w1))) = Ok (pull r)).
Proof.
  intros Hpurge. unfold syncAll.
  unfold bind at 1, enter at 1. cbv beta iota. unfold bind at 1. rewrite Hpurge.
  unfold try_catch, bind, ret.
  destruct (pushOutbox (push_env e) w1) as [[p|] w2]; cbn [fst snd].
  - destruct (pullServer (pull_env e) w2) as [[q|] w3]; cbn [fst snd];
      eexists _, _; (split; [reflexivity|]); cbn [error push pull swallowed].
    + repeat split; try done. intros [?|?]; discriminate.
    + repeat split; try done. by right.
  - eexists _, _. split; [reflexivity|]. cbn [error].
    repeat split; try done. by left.
Qed.

Lemma scan_list_stays_sound_witness :
  scanListSound ScanScreen.initial ∧
  ∃ s',
    ScanScreen.handleScanned 1000 "4006381333931" "ean13" ScanScreen.initial = Some s' ∧
    scanListSound s'.
Proof.
  destruct (scan_list_stays_sound 1000 "4006381333931" "ean13" ScanScreen.initial)
    as ([Hinit _] & _ & _ & Hstep & _).
  split; [exact Hinit|].
  eexists. split; [reflexivity|].
  refine (proj1 (proj2 (proj2 (proj2 (Hstep _ eq_refl)))) Hinit _).
  apply not_elem_of_nil.
Defined.

Lemma scan_same_value_is_dropped_witness :
  ∃ s',
    ScanScreen.handleScanned 1000 "4006381333931" "ean13" ScanScreen.initial = Some s' ∧
    ScanScreen.handleScanned 3600000 "4006381333931" "ean13" s' = None.
Proof.
  eexists. split; [reflexivity|].
  refine (proj1 (scan_same_value_is_dropped 1000 "4006381333931" "ean13"
                   ScanScreen.initial _ eq_refl) _ 3600000%Z "ean13").
  discriminate.
Defined.

Lemma sync_result_after_cleanup_witness :
  let w1 := snd (purgeLegacyArtifactsOnce storageFine
                   (log (entered fn_syncAll) queuedWorld)) in
  fst (purgeLegacyArtifactsOnce storageFine (log (entered fn_syncAll) queuedWorld))
    = Ok tt ∧
  ∃ r w', syncAll syncPushThrows queuedWorld = (Ok r, w') ∧ (error r = true → r = swallowed).
Proof.
  intros w1. split; [vm_compute; reflexivity|].
  assert (purgeLegacyArtifactsOnce (purge_env syncPushThrows)
            (log (entered fn_syncAll) queuedWorld) = (Ok tt, w1)) as Hpurge
    by (vm_compute; reflexivity).
  destruct (sync_result_after_cleanup syncPushThrows queuedWorld w1 Hpurge)
    as (r & w' & Hrun & _ & Hswallow & _).
  by exists r, w'.
Defined.

(** ** What a pull leaves in History *)

(** X24.  After a pull that returns a count, every row of the answer is in
    History under its [serverId], and every entry History had is still
    there.  An entry without [serverId] is never taken for a pulled row:
    a record that was created on the device and pushed stays beside the
    entry pulled for its remote row. *)
Theorem pull_represents_every_row (e : PullEnv) (w : World) (n : nat)
    (rows : list DbRow.t) :
  fst (pullServer e w) = Ok {| pulled := n; pull_reason := None |} →
  select e = Resolves (QData (Some rows)) →
  (∀ h, h ∈ historyOf w → h ∈ historyOf (snd (pullServer e w))) ∧
  (∀ row, row ∈ rows →
     ∃ h', h' ∈ historyOf (snd (pullServer e w)) ∧
           serverId h' = Some (idStr row) ∧
           ∀ h, serverId h = None → h' ≠ h).
Proof.
  intros Hret Hsel.
  destruct (pullServer_count_path e w n Hret)
    as (uid & data & Hs & Hg & Hq & Hhg & Harr & Hhs & Hm).
  assert (data = Some rows) as -> by congruence.
  destruct (pullServer_success e w uid (Some rows) Hs Hg Hq Hhg Harr Hhs Hm)
    as (w' & Hrun & Hkv).
  rewrite Hrun. cbn [snd from_option id] in *.
  assert (historyOf w' ≡ₚ
          historyOf w ++ (fromRow <$> fresh (byServerId (historyOf w)) rows)) as Hperm.
  { unfold historyOf at 1, scansAt at 1. rewrite Hkv.
    rewrite lookup_insert_ne by done. rewrite lookup_insert_eq.
    unfold pulledHistory. by rewrite arraySort_perm, merge_fold. }
  split.
  - intros h Hh. rewrite Hperm. apply elem_of_app. by left.
  - intros row Hrow.
    destruct (decide (idStr row ∈ byServerId (historyOf w))) as [Hknown|Hnew].
    + apply elem_of_byServerId in Hknown as (_ & h' & Hh' & Hsid).
      exists h'. split; [rewrite Hperm; apply elem_of_app; by left|].
      split; [done|]. intros h Hnone ->. congruence.
    + exists (fromRow row). split.
      * rewrite Hperm. apply elem_of_app. right. apply list_elem_of_fmap_2.
        by apply list_elem_of_filter.
      * split; [done|]. intros h Hnone <-. discriminate.
Qed.

Lemma pull_represents_every_row_witness :
  let e := pullTwoRows "2025-03-03T00:00:00.000Z" in
  fst (pullServer e queuedWorld) = Ok {| pulled := 2; pull_reason := None |} ∧
  scanA ∈ historyOf (snd (pullServer e queuedWorld)).
Proof.
  intros e.
  assert (fst (pullServer e queuedWorld) = Ok {| pulled := 2; pull_reason := None |})
    as Hret by (vm_compute; reflexivity).
  split; [exact Hret|].
  apply (proj1 (pull_represents_every_row e queuedWorld 2 _ Hret eq_refl)).
  assert (historyOf queuedWorld = [scanB; scanA]) as -> by (vm_compute; reflexivity).
  apply list_elem_of_further, list_elem_of_here.
Defined.

(** ** What the module keeps under its keys *)

Lemma purge_arrays e w :
  arraysStored w → arraysStored (snd (purgeLegacyArtifactsOnce e w)).
Proof.
  assert (∀ k, k ∉ LEGACY_KEYS → k ≠ K_LEGACY_CLEANED →
               kv (snd (purgeLegacyArtifactsOnce e w)) !! k = kv w !! k) as Hframe.
  { intros k Hk Hflag.
    destruct (purge_storage e w) as [->|[[-> _]|[-> _]]]; [done| |].
    - by rewrite lookup_foldr_delete, decide_False.
    - rewrite lookup_insert_ne by done. by rewrite lookup_foldr_delete, decide_False. }
  unfold arraysStored.
  rewrite !Hframe; [done|..]; try discriminate;
    apply (bool_decide_unpack _); vm_compute; exact I.
Qed.

Lemma pushOutbox_arrays e w :
  arraysStored w → arraysStored (snd (pushOutbox e w)).
Proof.
  intros [Hout Hhist]. unfold arraysStored.
  destruct (pushOutbox_storage e w)
    as [->|(uid & m & _ & [Hframe Hh] & Hfin)]; [done|].
  assert (arrayOrNothing (m !! K_OUTBOX) ∧ arrayOrNothing (m !! K_HISTORY)) as [Ho Hm].
  { split; [by rewrite Hframe|].
    destruct Hh as [->|(hist & hist' & _ & -> & _)]; done. }
  destruct Hfin as [->|[fs ->]]; [done|].
  split; [by rewrite lookup_insert_eq|by rewrite lookup_insert_ne].
Qed.

Lemma pullServer_arrays e w :
  arraysStored w → arraysStored (snd (pullServer e w)).
Proof.
  intros [Hout Hhist]. unfold arraysStored.
  destruct (pullServer_storage e w) as [->|(data & _ & [->|[-> _]])]; [done| |].
  - split; [by rewrite lookup_insert_ne|by rewrite lookup_insert_eq].
  - split; rewrite lookup_insert_ne by done;
      [by rewrite lookup_insert_ne|by rewrite lookup_insert_eq].
Qed.

(** X25.  Under the Outbox and History keys the module keeps arrays of
    scans: nothing is stored there on a fresh installation, and the
    cleanup, the push, the pull and the whole pass, whatever their outcome
    and whatever the collaborators answer, leave under each of the two keys
    an array of scans or nothing when that is what they found. *)
Theorem stored_arrays_stay_arrays (e : SyncEnv) (w : World) :
  arraysStored freshWorld ∧
  (arraysStored w →
   arraysStored (snd (purgeLegacyArtifactsOnce (purge_env e) w)) ∧
   arraysStored (snd (pushOutbox (push_env e) w)) ∧
   arraysStored (snd (pullServer (pull_env e) w)) ∧
   arraysStored (snd (syncAll e w))).
Proof.
  split; [split; vm_compute; exact I|]. intros Harr.
  split; [by apply purge_arrays|]. split; [by apply pushOutbox_arrays|].
  split; [by apply pullServer_arrays|].
  unfold syncAll. unfold bind at 1, enter at 1. cbv beta iota. unfold bind at 1.
  pose proof (purge_arrays (purge_env e) (log (entered fn_syncAll) w) Harr) as H1.
  destruct (purgeLegacyArtifactsOnce _ _) as [[[]|] w1]; cbn [snd] in *; [|done].
  unfold try_catch, bind, ret.
  pose proof (pushOutbox_arrays (push_env e) w1 H1) as H2.
  destruct (pushOutbox _ _) as [[p|] w2]; cbn [snd] in *; [|done].
  pose proof (pullServer_arrays (pull_env e) w2 H2) as H3.
  by destruct (pullServer _ _) as [[q|] w3].
Qed.

Lemma stored_arrays_stay_arrays_witness :
  arraysStored queuedWorld ∧
  arraysStored (snd (syncAll syncPushThrows queuedWorld)).
Proof.
  assert (arraysStored queuedWorld) as Harr by (split; vm_compute; exact I).
  split; [exact Harr|].
  exact (proj2 (proj2 (proj2 (proj2 (stored_arrays_stay_arrays syncPushThrows
                                       queuedWorld) Harr)))).
Defined.
